(** * Davis.js: history normaliser and application controller

    A shallow embedding of [src/davis.history.js] and [src/davis.app.js].

    JavaScript closures are defunctionalised: every function value the two
    files create or store ([wrapped(handler)], the [onChange] callback that
    [start] installs, the three default log subscriptions) is a constructor
    of an inductive type, and its body is the matching case of an
    interpreter.  Functions supplied by the application are opaque: calling
    one is recorded in the trace, it returns normally and it does not call
    back into the library.

    The whole page is one [World]: the private state of [Davis.history], the
    listeners on [window], the subscriber table of [Davis.event], the route
    table, the [settings] object on the prototype of [Davis.App], the
    instances and the trace of observable calls. *)

From Stdlib Require Import ZArith Ascii String.
From stdpp Require Import gmap strings list.

Open Scope string_scope.
Open Scope list_scope.

(** ** JavaScript values *)

(** A [Davis.Request]: the properties the two files read. *)
Record Request := mkRequest {
  method : string;
  path : string;
  title : string;
  params : list (string * string)
}.

Inductive number :=
| NaN
| Finite (z : Z).

Inductive value :=
| VUndefined
| VNull
| VBool (b : bool)
| VNumber (n : number)
| VString (s : string)
| VRequest (r : Request).

(** ECMAScript ToBoolean, the test of [if (event.state)]. *)
Definition to_boolean (v : value) : bool :=
  match v with
  | VUndefined | VNull => false
  | VBool b => b
  | VNumber NaN => false
  | VNumber (Finite z) => negb (Z.eqb z 0)
  | VString s => negb (String.eqb s "")
  | VRequest _ => true
  end.

(** A popstate event carries [null] when the entry has no state. *)
Definition present (v : value) : bool :=
  match v with
  | VUndefined | VNull => false
  | _ => true
  end.

Inductive field := FMethod | FPath | FTitle.

(** Property read [v.f]: a TypeError ([None]) on [null] and [undefined],
    [undefined] on the other primitives. *)
Definition get (v : value) (f : field) : option value :=
  match v with
  | VUndefined | VNull => None
  | VRequest r =>
      Some (VString match f with
                    | FMethod => method r
                    | FPath => path r
                    | FTitle => title r
                    end)
  | _ => Some VUndefined
  end.

(** ** Route table *)

Module Route.

Record t := mk {
  method : string;
  pattern : string;
  callback : nat
}.

Fixpoint split_on (c : ascii) (s : string) : list string :=
  match s with
  | EmptyString => [EmptyString]
  | String a s' =>
      if Ascii.eqb a c then EmptyString :: split_on c s'
      else match split_on c s' with
           | [] => [String a EmptyString]
           | x :: xs => String a x :: xs
           end
  end.

(** Modelled from the spec: the PathPattern matcher, whose source
    (davis.route.js) is not among the files.  A template such as
    [/welcome/:name] is cut at the slashes; a segment [:name] takes any
    non-empty path segment and binds it to [name], any other segment must
    be equal to the path's.  The result is the parameter mapping, or
    [None] for a miss. *)
Fixpoint match_segments (pat seg : list string)
  : option (list (string * string)) :=
  match pat, seg with
  | [], [] => Some []
  | String ":"%char name :: pat', s :: seg' =>
      if String.eqb s "" then None
      else match match_segments pat' seg' with
           | Some ps => Some ((name, s) :: ps)
           | None => None
           end
  | p :: pat', s :: seg' =>
      if String.eqb p s then match_segments pat' seg' else None
  | _, _ => None
  end.

Definition match_path (pat p : string) : option (list (string * string)) :=
  match_segments (split_on "/"%char pat) (split_on "/"%char p).

(** Modelled from the spec: a candidate is tried when its method is
    exactly the requested one, and then its pattern is attempted. *)
Definition matches (r : t) (m p : string) : bool :=
  if String.eqb (method r) m
  then match match_path (pattern r) p with Some _ => true | None => false end
  else false.

(** Modelled from the spec: [Davis.Route.lookup(method, path)], whose
    source (davis.route.js) is not among the files: a linear scan over the
    routes in registration order that returns on the first success, and
    the "not found" sentinel ([None]) after exhausting the list. *)
Fixpoint lookup (m p : string) (rs : list t) : option t :=
  match rs with
  | [] => None
  | r :: rs' => if matches r m p then Some r else lookup m p rs'
  end.

End Route.

(** The call [Davis.Route.lookup(request.method, request.path)] on the
    values the two property reads gave.  A method that is not a string is
    equal to no route's method. *)
Definition lookup_values (m p : value) (rs : list Route.t) : option Route.t :=
  match m, p with
  | VString m', VString p' => Route.lookup m' p' rs
  | _, _ => None
  end.

(** ** Closures, events and the world *)

(** Functions passed to [Davis.history.onChange]: an application function,
    or the callback [start] builds around [self]. *)
Inductive handler :=
| HUser (id : nat)
| HDispatch (self : nat).

(** Listeners added to [window] for [popstate]: the module adds only
    [wrapped(handler)]. *)
Inductive listener :=
| Wrapped (h : handler).

(** Values stored in the subscriber table of [Davis.event]: an application
    function, one of the three log subscriptions of [start], or the
    [undefined] that [bind('stop')] passes for the missing argument. *)
Inductive callback :=
| CbUser (id : nat)
| CbLogRunRoute (self : nat)
| CbLogRouteNotFound (self : nat)
| CbLogStart (self : nat)
| CbUndefined.

Inductive level := Info | Warn.

(** Calls that leave the two files, in the order they happen. *)
Inductive event :=
| HistoryPushState (state : value) (ttl url : string)
| HistoryReplaceState (state : value) (ttl url : string)
| ForPageLoad
| Handler (h : handler) (arg : value)
| Trigger (self : nat) (name : string) (arg : option value)
| Subscriber (id : nat) (arg : option value)
| Logger (logger : nat) (lv : level) (msg : string) (arg : option value)
| RouteLookup (m p : value)
| RouteRun (route : Route.t) (arg : value)
| Listen (self : nat) (links forms : string)
| Unlisten (self : nat)
| TypeError.

Record Settings := mkSettings {
  linkSelector : string;
  formSelector : string;
  logger : nat
}.

(** [Davis.logger] *)
Definition davis_logger : nat := 0.

(** The own properties the constructor gives an instance.  There is no own
    [settings]: that name is found on the prototype. *)
Record Instance := mkInstance {
  foo : string;
  running : bool
}.

Record World := mkWorld {
  pushStateHandlers : list handler;       (* davis.history.js, line 20 *)
  popstateListeners : list listener;      (* window, 'popstate' *)
  location : string;                      (* window.location.pathname *)
  docTitle : string;                      (* document.title *)
  callbacks : gmap string (list callback);(* Davis.event *)
  routes : list Route.t;                  (* Davis.Route *)
  settings : Settings;                    (* klass.prototype.settings *)
  apps : list Instance;                   (* objects made by new Davis.App *)
  intercepting : bool;                    (* Davis.listener *)
  trace : list event
}.

Definition set_pushStateHandlers (x : list handler) (w : World) : World :=
  mkWorld x (popstateListeners w) (location w) (docTitle w) (callbacks w)
          (routes w) (settings w) (apps w) (intercepting w) (trace w).
Definition set_popstateListeners (x : list listener) (w : World) : World :=
  mkWorld (pushStateHandlers w) x (location w) (docTitle w) (callbacks w)
          (routes w) (settings w) (apps w) (intercepting w) (trace w).
Definition set_location (x : string) (w : World) : World :=
  mkWorld (pushStateHandlers w) (popstateListeners w) x (docTitle w)
          (callbacks w) (routes w) (settings w) (apps w) (intercepting w)
          (trace w).
Definition set_callbacks (x : gmap string (list callback)) (w : World)
  : World :=
  mkWorld (pushStateHandlers w) (popstateListeners w) (location w)
          (docTitle w) x (routes w) (settings w) (apps w) (intercepting w)
          (trace w).
Definition set_settings (x : Settings) (w : World) : World :=
  mkWorld (pushStateHandlers w) (popstateListeners w) (location w)
          (docTitle w) (callbacks w) (routes w) x (apps w) (intercepting w)
          (trace w).
Definition set_apps (x : list Instance) (w : World) : World :=
  mkWorld (pushStateHandlers w) (popstateListeners w) (location w)
          (docTitle w) (callbacks w) (routes w) (settings w) x
          (intercepting w) (trace w).
Definition set_intercepting (x : bool) (w : World) : World :=
  mkWorld (pushStateHandlers w) (popstateListeners w) (location w)
          (docTitle w) (callbacks w) (routes w) (settings w) (apps w) x
          (trace w).
Definition add_trace (es : list event) (w : World) : World :=
  mkWorld (pushStateHandlers w) (popstateListeners w) (location w)
          (docTitle w) (callbacks w) (routes w) (settings w) (apps w)
          (intercepting w) (trace w ++ es).

(** The page before any script of the library has run. *)
Definition init (rs : list Route.t) (loc ttl : string) : World :=
  mkWorld [] [] loc ttl ∅ rs (mkSettings "a" "form" davis_logger) [] false [].

(** ** Statements: state passing with exceptions *)

Inductive completion := Normal | Thrown.

Definition M := World -> World * completion.

Definition skip : M := fun w => (w, Normal).
Definition throw : M := fun w => (add_trace [TypeError] w, Thrown).
Definition modify (f : World -> World) : M := fun w => (f w, Normal).
Definition emit (e : event) : M := modify (add_trace [e]).
Definition reading {A} (f : World -> A) (k : A -> M) : M := fun w => k (f w) w.

Definition seq (a b : M) : M :=
  fun w => match a w with
           | (w', Normal) => b w'
           | (w', Thrown) => (w', Thrown)
           end.

Notation "a >>> b" := (seq a b) (at level 65, right associativity).

(** [Array.prototype.forEach]: an exception leaves the loop. *)
Fixpoint forEach {A} (f : A -> M) (l : list A) : M :=
  match l with
  | [] => skip
  | x :: l' => f x >>> forEach f l'
  end.

(** Dispatch of a DOM event: an exception in one listener is reported and
    the next listener still runs. *)
Fixpoint dispatchEvent {A} (f : A -> M) (l : list A) : M :=
  match l with
  | [] => skip
  | x :: l' => fun w => dispatchEvent f l' (f x w).1
  end.

(** ** Collaborators that the two files call *)

(** Modelled from the spec: [Davis.Request.forPageLoad()], whose source
    (davis.request.js) is not among the files: a new Request that
    represents loading the current location, with no parameters. *)
Definition forPageLoad (w : World) : Request :=
  mkRequest "get" (location w) (docTitle w) [].

(** [this.settings]: no instance has an own property of that name, so the
    read reaches the one object stored on the prototype, whatever [self]
    is. *)
Definition settings_of (self : nat) (w : World) : Settings := settings w.

Module Event.

Definition subscribers (name : string) (w : World) : list callback :=
  default [] (callbacks w !! name).

(** Modelled from the spec: [bind] of the event-emitter mixin
    [Davis.event], whose source is not among the files.  The subscriber
    table is the mixin's own and so one for the page; a subscription is
    appended to the list of its event name. *)
Definition bind (name : string) (cb : callback) : M :=
  modify (fun w =>
    set_callbacks (<[name := subscribers name w ++ [cb]]> (callbacks w)) w).

(** What each stored function does when it is called (davis.app.js,
    lines 23 to 31, for the log subscriptions). *)
Definition call (cb : callback) (arg : option value) : M :=
  match cb with
  | CbUser id => emit (Subscriber id arg)
  | CbLogRunRoute self =>
      match arg with
      | Some v =>
          if present v
          then reading (settings_of self) (fun s =>
                 emit (Logger (logger s) Info "runRoute: " arg))
          else throw
      | None => throw
      end
  | CbLogRouteNotFound self =>
      match arg with
      | Some v =>
          if present v
          then reading (settings_of self) (fun s =>
                 emit (Logger (logger s) Warn "routeNotFound: " arg))
          else throw
      | None => throw
      end
  | CbLogStart self =>
      reading (settings_of self) (fun s =>
        emit (Logger (logger s) Info "application started" None))
  | CbUndefined => throw
  end.

(** Modelled from the spec: [trigger] of [Davis.event]: the registered
    subscribers of the event are called in registration order. *)
Definition trigger (self : nat) (name : string) (arg : option value) : M :=
  emit (Trigger self name arg) >>>
  reading (subscribers name) (forEach (fun cb => call cb arg)).

End Event.

Module Listener.

(** Modelled from the spec: [listen] and [unlisten] of the mixin
    [Davis.listener], whose source is not among the files: begin and stop
    intercepting link clicks and form submissions. *)
Definition listen (self : nat) : M :=
  reading (settings_of self) (fun s =>
    emit (Listen self (linkSelector s) (formSelector s))) >>>
  modify (set_intercepting true).

Definition unlisten (self : nat) : M :=
  emit (Unlisten self) >>> modify (set_intercepting false).

End Listener.

(** The function [start] passes to [Davis.history.onChange]
    (davis.app.js, lines 36 to 45). *)
Definition dispatch (self : nat) (request : value) : M :=
  Event.trigger self "lookupRoute" (Some request) >>>
  match get request FMethod, get request FPath with
  | Some m, Some p =>
      emit (RouteLookup m p) >>>
      reading (fun w => lookup_values m p (routes w)) (fun route =>
        match route with
        | Some rt =>
            Event.trigger self "runRoute" (Some request) >>>
            emit (RouteRun rt request)
        | None =>
            Event.trigger self "routeNotFound" (Some request)
        end)
  | _, _ => throw
  end.

Definition call_handler (h : handler) (arg : value) : M :=
  emit (Handler h arg) >>>
  match h with
  | HUser _ => skip
  | HDispatch self => dispatch self arg
  end.

(** ** davis.history.js *)

Module History.

Definition onPushState (h : handler) : M :=
  modify (fun w => set_pushStateHandlers (pushStateHandlers w ++ [h]) w).

Definition onPopState (l : listener) : M :=
  modify (fun w => set_popstateListeners (popstateListeners w ++ [l]) w).

Definition wrapped (h : handler) : listener := Wrapped h.

(** The body of the function [wrapped] returns, applied to an event
    whose [state] is [state]. *)
Definition call_listener (l : listener) (state : value) : M :=
  match l with
  | Wrapped h =>
      if to_boolean state
      then call_handler h state
      else emit ForPageLoad >>>
           reading forPageLoad (fun r => call_handler h (VRequest r))
  end.

Definition onChange (h : handler) : M :=
  onPushState h >>> onPopState (wrapped h).

(** [history.pushState] and [history.replaceState] of the host: the call
    is recorded, and the address bar shows the new path. *)
Definition host_pushState (state : value) (ttl url : string) : M :=
  emit (HistoryPushState state ttl url) >>> modify (set_location url).

Definition host_replaceState (state : value) (ttl url : string) : M :=
  emit (HistoryReplaceState state ttl url) >>> modify (set_location url).

Definition pushState (request : Request) : M :=
  host_pushState (VRequest request) (title request) (path request) >>>
  reading pushStateHandlers
    (forEach (fun h => call_handler h (VRequest request))).

Definition replaceState (request : Request) : M :=
  host_replaceState (VRequest request) (title request) (path request) >>>
  reading pushStateHandlers
    (forEach (fun h => call_handler h (VRequest request))).

(** The host fires [popstate] after a back or forward navigation: the
    location is already the entry's, and every listener receives an event
    with the entry's state. *)
Definition popstate (state : value) (url : string) : M :=
  modify (set_location url) >>>
  reading popstateListeners
    (dispatchEvent (fun l => call_listener l state)).

End History.

(** ** davis.app.js *)

Module App.

(** [new Davis.App()]: the constructor sets [foo] and [running]. *)
Definition new (w : World) : nat * World :=
  (length (apps w), set_apps (apps w ++ [mkInstance "bar" false]) w).

Definition set_running (self : nat) (b : bool) : M :=
  modify (fun w =>
    set_apps (alter (fun i => mkInstance (foo i) b) self (apps w)) w).

Definition is_running (self : nat) (w : World) : option bool :=
  running <$> apps w !! self.

(** [config.call(this.settings)]: [config] is an application function; it
    acts on its receiver. *)
Definition configure (self : nat) (config : Settings -> Settings) : M :=
  reading (settings_of self) (fun s => modify (set_settings (config s))).

Definition start (self : nat) : M :=
  Event.bind "runRoute" (CbLogRunRoute self) >>>
  Event.bind "routeNotFound" (CbLogRouteNotFound self) >>>
  Event.bind "start" (CbLogStart self) >>>
  Listener.listen self >>>
  Event.trigger self "start" None >>>
  History.onChange (HDispatch self) >>>
  set_running self true.

Definition stop (self : nat) : M :=
  Listener.unlisten self >>>
  Event.bind "stop" CbUndefined.

End App.

(** ** Programs: what a page can do with the library *)

Inductive op :=
| NewApp
| Configure (self : nat) (config : Settings -> Settings)
| Start (self : nat)
| Stop (self : nat)
| Bind (name : string) (subscriber : nat)
| OnChange (h : nat)
| PushState (request : Request)
| ReplaceState (request : Request)
| PopState (state : value) (url : string).

Definition exec (o : op) : M :=
  match o with
  | NewApp => modify (fun w => (App.new w).2)
  | Configure self config => App.configure self config
  | Start self => App.start self
  | Stop self => App.stop self
  | Bind name id => Event.bind name (CbUser id)
  | OnChange h => History.onChange (HUser h)
  | PushState r => History.pushState r
  | ReplaceState r => History.replaceState r
  | PopState state url => History.popstate state url
  end.

Definition run (ops : list op) : M := forEach exec ops.

(** The world a program leaves, started on a fresh page.  No operation
    throws there, so the program runs to its end ([run_completes]). *)
Definition after (rs : list Route.t) (loc ttl : string) (ops : list op)
  : World :=
  (run ops (init rs loc ttl)).1.

(** What a statement adds to the trace. *)
Definition delta (m : M) (w : World) : list event :=
  drop (length (trace w)) (trace (m w).1).

(** ** Example data *)

Definition welcome : Route.t := Route.mk "get" "/welcome/:name" 1.
Definition welcome_bob : Route.t := Route.mk "get" "/welcome/bob" 2.
Definition bob : Request := mkRequest "get" "/welcome/bob" "Bob" [].
Definition nowhere : Request := mkRequest "get" "/nowhere" "" [].

(** [config] of an application: name another logger. *)
Definition use_logger (n : nat) (s : Settings) : Settings :=
  mkSettings (linkSelector s) (formSelector s) n.

(** ** Vocabulary of the proofs *)

(** A statement that may only write to the trace: everything the library
    calls while it delivers a request is of this kind. *)
Definition trace_only (m : M) : Prop :=
  forall w, exists es, (m w).1 = add_trace es w.

(** The subscriber table of a page that uses the library as intended: the
    application subscribes functions; [start] subscribes its three log
    functions under their own events; [stop] leaves an [undefined] under
    [stop], an event nothing in the two files triggers. *)
Definition cb_ok (name : string) (cb : callback) : Prop :=
  match cb with
  | CbUser _ => True
  | CbLogRunRoute _ => name = "runRoute"
  | CbLogRouteNotFound _ => name = "routeNotFound"
  | CbLogStart _ => name = "start"
  | CbUndefined => name = "stop"
  end.

Definition wf (w : World) : Prop :=
  forall name cb, cb ∈ Event.subscribers name w -> cb_ok name cb.

(** A notification as the two files send it: [start] without argument, the
    others with the request. *)
Definition safe (name : string) (arg : option value) : Prop :=
  name <> "stop" /\
  (name = "start" \/ exists v, arg = Some v /\ present v = true).

(** The trace each call leaves when nothing throws. *)
Definition call_events (w : World) (arg : option value) (cb : callback)
  : list event :=
  match cb with
  | CbUser id => [Subscriber id arg]
  | CbLogRunRoute self =>
      [Logger (logger (settings_of self w)) Info "runRoute: " arg]
  | CbLogRouteNotFound self =>
      [Logger (logger (settings_of self w)) Warn "routeNotFound: " arg]
  | CbLogStart self =>
      [Logger (logger (settings_of self w)) Info "application started" None]
  | CbUndefined => [TypeError]
  end.

(** The trace of [trigger], of the [onChange] callback of [start], of a
    handler and of a popstate listener, when nothing throws. *)
Definition trigger_events (w : World) (self : nat) (name : string)
    (arg : option value) : list event :=
  Trigger self name arg ::
  flat_map (call_events w arg) (Event.subscribers name w).

Definition dispatch_events (w : World) (self : nat) (v : value) : list event :=
  trigger_events w self "lookupRoute" (Some v) ++
  match get v FMethod, get v FPath with
  | Some m, Some p =>
      RouteLookup m p ::
      match lookup_values m p (routes w) with
      | Some rt => trigger_events w self "runRoute" (Some v) ++ [RouteRun rt v]
      | None => trigger_events w self "routeNotFound" (Some v)
      end
  | _, _ => [TypeError]
  end.

Definition handler_events (w : World) (v : value) (h : handler) : list event :=
  Handler h v ::
  match h with
  | HUser _ => []
  | HDispatch self => dispatch_events w self v
  end.

(** The argument a listener made by [wrapped] hands to its handler. *)
Definition delivered (w : World) (state : value) : value :=
  if to_boolean state then state else VRequest (forPageLoad w).

Definition listener_events (w : World) (state : value) (l : listener)
  : list event :=
  match l with
  | Wrapped h =>
      (if to_boolean state then [] else [ForPageLoad]) ++
      handler_events w (delivered w state) h
  end.

Ltac list_norm :=
  repeat first [rewrite <- app_assoc | rewrite <- app_comm_cons]; simpl.

(** The world after the three [bind] calls that open [start]. *)
Definition bound (self : nat) (w : World) : World :=
  (Event.bind "start" (CbLogStart self)
     (Event.bind "routeNotFound" (CbLogRouteNotFound self)
        (Event.bind "runRoute" (CbLogRunRoute self) w).1).1).1.

(** What an operation passes to [Davis.history.onChange]. *)
Definition registered (o : op) : list handler :=
  match o with
  | OnChange h => [HUser h]
  | Start self => [HDispatch self]
  | _ => []
  end.

Definition registrations (ops : list op) : list handler :=
  flat_map registered ops.

(** The receivers of the [start] calls of a program, in order. *)
Definition starts (ops : list op) : list nat :=
  omap (fun o => match o with Start self => Some self | _ => None end) ops.

(** What one operation does to the parts of the page that the proofs
    follow. *)
Record exec_facts (o : op) (w w' : World) : Prop := {
  ef_wf : wf w';
  ef_handlers : pushStateHandlers w' = pushStateHandlers w ++ registered o;
  ef_listeners :
    popstateListeners w' = popstateListeners w ++ map Wrapped (registered o);
  ef_routes : routes w' = routes w;
  ef_docTitle : docTitle w' = docTitle w
}.

(** The handler calls of a trace: who was called, with what. *)
Definition invocations (es : list event) : list (handler * value) :=
  omap (fun e => match e with Handler h v => Some (h, v) | _ => None end) es.

(** The calls to the host history. *)
Definition host_calls (es : list event) : list event :=
  omap (fun e => match e with
                 | HistoryPushState _ _ _ | HistoryReplaceState _ _ _ => Some e
                 | _ => None
                 end) es.

(** The requests built by [Davis.Request.forPageLoad()]. *)
Definition page_loads (es : list event) : nat :=
  length (omap (fun e => match e with ForPageLoad => Some e | _ => None end) es).

(** What the [onChange] callback of [start] does itself: the notifications
    it sends, the lookup, the route callback.  What the subscribers do is
    left out. *)
Definition steps (es : list event) : list event :=
  omap (fun e => match e with
                 | Trigger _ _ _ | RouteLookup _ _ | RouteRun _ _ => Some e
                 | _ => None
                 end) es.

(** The receivers of the [start] callbacks among the handlers. *)
Definition dispatchers (hs : list handler) : list nat :=
  omap (fun h => match h with HDispatch self => Some self | _ => None end) hs.

(** One run of the [onChange] callback of [start] on a Request. *)
Definition dispatch_steps (rs : list Route.t) (self : nat) (r : Request)
  : list event :=
  Trigger self "lookupRoute" (Some (VRequest r)) ::
  RouteLookup (VString (method r)) (VString (path r)) ::
  match Route.lookup (method r) (path r) rs with
  | Some rt => [Trigger self "runRoute" (Some (VRequest r));
                RouteRun rt (VRequest r)]
  | None => [Trigger self "routeNotFound" (Some (VRequest r))]
  end.

(** The handler lists of [w'] begin with those of [w]. *)
Definition extends (w w' : World) : Prop :=
  pushStateHandlers w `prefix_of` pushStateHandlers w' /\
  popstateListeners w `prefix_of` popstateListeners w'.

Definition monotone (m : M) : Prop := forall w, extends w (m w).1.

(** ** Vocabulary of the further properties *)

(** Everything of the page but its trace and its location is the same. *)
Definition same_registry (w w' : World) : Prop :=
  pushStateHandlers w' = pushStateHandlers w /\
  popstateListeners w' = popstateListeners w /\
  callbacks w' = callbacks w /\
  routes w' = routes w /\
  settings w' = settings w /\
  apps w' = apps w /\
  intercepting w' = intercepting w /\
  docTitle w' = docTitle w.

(** A log entry went to the logger [n]. *)
Definition logs_through (n : nat) (e : event) : Prop :=
  match e with
  | Logger l _ _ _ => l = n
  | _ => True
  end.

(** How many log entries of a trace carry the message [msg]. *)
Definition log_lines (msg : string) (es : list event) : nat :=
  length (omap (fun e => match e with
                         | Logger _ _ m _ =>
                             if String.eqb m msg then Some e else None
                         | _ => None
                         end) es).

(** The log subscriptions that [start] made, by receiver. *)
Definition log_subscription (cb : callback) : option nat :=
  match cb with
  | CbLogRunRoute self | CbLogRouteNotFound self | CbLogStart self => Some self
  | _ => None
  end.

(** What an operation appends to the subscribers of the event [n]. *)
Definition added (n : string) (o : op) : list callback :=
  match o with
  | Bind name id => if decide (name = n) then [CbUser id] else []
  | Start self =>
      if decide (n = "runRoute") then [CbLogRunRoute self]
      else if decide (n = "routeNotFound") then [CbLogRouteNotFound self]
      else if decide (n = "start") then [CbLogStart self]
      else []
  | Stop _ => if decide (n = "stop") then [CbUndefined] else []
  | _ => []
  end.

(** No TypeError in a trace. *)
Definition no_error (es : list event) : Prop :=
  Forall (fun e => e <> TypeError) es.

(** ** Reasoning about statements *)

Lemma add_trace_nil w : add_trace [] w = w.
Proof. destruct w; unfold add_trace; simpl. by rewrite app_nil_r. Qed.

Lemma add_trace_add es1 es2 w :
  add_trace es2 (add_trace es1 w) = add_trace (es1 ++ es2) w.
Proof. unfold add_trace; simpl. by rewrite app_assoc. Qed.

Lemma seq_normal (a b : M) w w' :
  a w = (w', Normal) -> (a >>> b) w = b w'.
Proof. intros E. unfold seq. by rewrite E. Qed.

Lemma trace_only_skip : trace_only skip.
Proof. intros w. exists []. by rewrite add_trace_nil. Qed.

Lemma trace_only_throw : trace_only throw.
Proof. intros w. by exists [TypeError]. Qed.

Lemma trace_only_emit e : trace_only (emit e).
Proof. intros w. by exists [e]. Qed.

Lemma trace_only_seq a b : trace_only a -> trace_only b -> trace_only (a >>> b).
Proof.
  intros Ha Hb w. unfold seq.
  destruct (Ha w) as [es1 E1]. destruct (a w) as [w1 []]; simpl in E1; subst w1.
  - destruct (Hb (add_trace es1 w)) as [es2 E2].
    exists (es1 ++ es2). by rewrite E2, add_trace_add.
  - by exists es1.
Qed.

Lemma trace_only_reading {A} (f : World -> A) k :
  (forall x, trace_only (k x)) -> trace_only (reading f k).
Proof. intros Hk w. apply Hk. Qed.

Lemma trace_only_forEach {A} (f : A -> M) l :
  (forall x, trace_only (f x)) -> trace_only (forEach f l).
Proof.
  intros Hf. induction l as [|x l IH]; simpl.
  - apply trace_only_skip.
  - by apply trace_only_seq.
Qed.

Lemma trace_only_dispatchEvent {A} (f : A -> M) l :
  (forall x, trace_only (f x)) -> trace_only (dispatchEvent f l).
Proof.
  intros Hf. induction l as [|x l IH]; simpl.
  - apply trace_only_skip.
  - intros w. destruct (Hf x w) as [es1 E1]. rewrite E1.
    destruct (IH (add_trace es1 w)) as [es2 E2].
    exists (es1 ++ es2). by rewrite E2, add_trace_add.
Qed.

Lemma trace_only_call cb arg : trace_only (Event.call cb arg).
Proof.
  destruct cb; simpl;
    repeat first
      [ apply trace_only_emit | apply trace_only_throw
      | apply trace_only_reading; intros ?
      | match goal with |- trace_only (match ?x with _ => _ end) => destruct x end ].
Qed.

Lemma trace_only_trigger self name arg :
  trace_only (Event.trigger self name arg).
Proof.
  apply trace_only_seq; [apply trace_only_emit|].
  apply trace_only_reading; intros l.
  apply trace_only_forEach; intros cb. apply trace_only_call.
Qed.

Lemma trace_only_dispatch self v : trace_only (dispatch self v).
Proof.
  apply trace_only_seq; [apply trace_only_trigger|].
  destruct (get v FMethod), (get v FPath); try apply trace_only_throw.
  apply trace_only_seq; [apply trace_only_emit|].
  apply trace_only_reading; intros [rt|]; [|apply trace_only_trigger].
  apply trace_only_seq; [apply trace_only_trigger | apply trace_only_emit].
Qed.

Lemma trace_only_call_handler h v : trace_only (call_handler h v).
Proof.
  apply trace_only_seq; [apply trace_only_emit|].
  destruct h; [apply trace_only_skip | apply trace_only_dispatch].
Qed.

Lemma trace_only_call_listener l v : trace_only (History.call_listener l v).
Proof.
  destruct l as [h]; simpl. destruct (to_boolean v).
  - apply trace_only_call_handler.
  - apply trace_only_seq; [apply trace_only_emit|].
    apply trace_only_reading; intros r. apply trace_only_call_handler.
Qed.

(** ** The exact trace of each call on a well-formed page *)

Lemma forEach_exact {A} (f : A -> M) (ev : A -> list event) l w :
  (forall x es, x ∈ l ->
     f x (add_trace es w) = (add_trace (es ++ ev x) w, Normal)) ->
  forall es, forEach f l (add_trace es w)
             = (add_trace (es ++ flat_map ev l) w, Normal).
Proof.
  induction l as [|x l IH]; intros H es; simpl.
  - by rewrite app_nil_r.
  - rewrite (seq_normal _ _ _ _ (H x es ltac:(left))).
    rewrite IH; [by rewrite app_assoc|].
    intros y es' Hy. apply H. by right.
Qed.

Lemma dispatchEvent_exact {A} (f : A -> M) (ev : A -> list event) l w :
  (forall x es, x ∈ l ->
     f x (add_trace es w) = (add_trace (es ++ ev x) w, Normal)) ->
  forall es, dispatchEvent f l (add_trace es w)
             = (add_trace (es ++ flat_map ev l) w, Normal).
Proof.
  induction l as [|x l IH]; intros H es; simpl.
  - by rewrite app_nil_r.
  - rewrite (H x es ltac:(left)). simpl.
    rewrite IH; [by rewrite app_assoc|].
    intros y es' Hy. apply H. by right.
Qed.

Lemma call_exact w name arg cb es :
  cb_ok name cb -> safe name arg ->
  Event.call cb arg (add_trace es w)
  = (add_trace (es ++ call_events w arg cb) w, Normal).
Proof.
  intros Hok [Hstop Harg].
  destruct cb; simpl in Hok; subst; try done;
    try (unfold Event.call, reading, emit, modify; simpl;
         by rewrite add_trace_add).
  - destruct Harg as [?|(v & -> & Hv)]; [done|].
    unfold Event.call, reading, emit, modify. rewrite Hv. simpl.
    by rewrite add_trace_add.
  - destruct Harg as [?|(v & -> & Hv)]; [done|].
    unfold Event.call, reading, emit, modify. rewrite Hv. simpl.
    by rewrite add_trace_add.
Qed.

Lemma trigger_exact w self name arg es :
  wf w -> safe name arg ->
  Event.trigger self name arg (add_trace es w)
  = (add_trace (es ++ trigger_events w self name arg) w, Normal).
Proof.
  intros Hwf Hsafe. unfold Event.trigger, trigger_events.
  erewrite seq_normal; [|reflexivity].
  unfold reading. rewrite add_trace_add.
  change (Event.subscribers name (add_trace (es ++ [Trigger self name arg]) w))
    with (Event.subscribers name w).
  rewrite (forEach_exact _ (call_events w arg)).
  - by rewrite <- app_assoc.
  - intros cb es' Hcb. apply (call_exact w name); [by apply Hwf | done].
Qed.

Lemma safe_request name v :
  name <> "stop" -> present v = true -> safe name (Some v).
Proof. intros ? ?. split; [done|]. right. by exists v. Qed.

Lemma dispatch_exact w self v es :
  wf w -> present v = true ->
  dispatch self v (add_trace es w)
  = (add_trace (es ++ dispatch_events w self v) w, Normal).
Proof.
  intros Hwf Hv. unfold dispatch, dispatch_events.
  erewrite seq_normal;
    [|by apply trigger_exact; [|apply safe_request]].
  destruct v as [| |b|n|s|r]; try done; simpl.
  all: erewrite seq_normal; [|reflexivity].
  all: unfold reading; rewrite add_trace_add; simpl.
  1-3: rewrite trigger_exact; [|done|by apply safe_request].
  1-3: by list_norm.
  destruct (Route.lookup (method r) (path r) (routes w)) as [rt|].
  - erewrite seq_normal;
      [|by apply trigger_exact; [|apply safe_request]].
    unfold emit, modify. rewrite add_trace_add. by list_norm.
  - rewrite trigger_exact; [|done|by apply safe_request]. by list_norm.
Qed.

Lemma handler_exact w h v es :
  wf w -> present v = true ->
  call_handler h v (add_trace es w)
  = (add_trace (es ++ handler_events w v h) w, Normal).
Proof.
  intros Hwf Hv. unfold call_handler, handler_events.
  erewrite seq_normal; [|reflexivity]. rewrite add_trace_add.
  destruct h as [id|self].
  - done.
  - rewrite dispatch_exact by done. by list_norm.
Qed.

Lemma present_delivered w state : present (delivered w state) = true.
Proof.
  unfold delivered. destruct (to_boolean state) eqn:E; [|done].
  by destruct state.
Qed.

Lemma listener_exact w l state es :
  wf w ->
  History.call_listener l state (add_trace es w)
  = (add_trace (es ++ listener_events w state l) w, Normal).
Proof.
  intros Hwf. destruct l as [h]. unfold History.call_listener, listener_events.
  pose proof (present_delivered w state) as Hp. unfold delivered in *.
  destruct (to_boolean state) eqn:E.
  - by rewrite handler_exact.
  - erewrite seq_normal; [|reflexivity]. rewrite add_trace_add.
    unfold reading.
    change (forPageLoad (add_trace (es ++ [ForPageLoad]) w))
      with (forPageLoad w).
    rewrite handler_exact by done. by rewrite <- app_assoc.
Qed.

Lemma set_location_add_trace url es w :
  set_location url (add_trace es w) = add_trace es (set_location url w).
Proof. reflexivity. Qed.

(** The three ways a request reaches the handlers. *)
Lemma pushState_exact w r :
  wf w ->
  History.pushState r w
  = (add_trace (HistoryPushState (VRequest r) (title r) (path r) ::
                flat_map (handler_events w (VRequest r)) (pushStateHandlers w))
               (set_location (path r) w), Normal).
Proof.
  intros Hwf. unfold History.pushState, History.host_pushState.
  erewrite seq_normal; [|reflexivity]. unfold reading.
  rewrite set_location_add_trace.
  change (pushStateHandlers (add_trace _ (set_location (path r) w)))
    with (pushStateHandlers w).
  rewrite (forEach_exact _ (handler_events w (VRequest r))); [done|].
  intros h es _. by apply (handler_exact (set_location (path r) w)).
Qed.

Lemma replaceState_exact w r :
  wf w ->
  History.replaceState r w
  = (add_trace (HistoryReplaceState (VRequest r) (title r) (path r) ::
                flat_map (handler_events w (VRequest r)) (pushStateHandlers w))
               (set_location (path r) w), Normal).
Proof.
  intros Hwf. unfold History.replaceState, History.host_replaceState.
  erewrite seq_normal; [|reflexivity]. unfold reading.
  rewrite set_location_add_trace.
  change (pushStateHandlers (add_trace _ (set_location (path r) w)))
    with (pushStateHandlers w).
  rewrite (forEach_exact _ (handler_events w (VRequest r))); [done|].
  intros h es _. by apply (handler_exact (set_location (path r) w)).
Qed.

Lemma popstate_exact w state url :
  wf w ->
  History.popstate state url w
  = (add_trace (flat_map (listener_events (set_location url w) state)
                         (popstateListeners w))
               (set_location url w), Normal).
Proof.
  intros Hwf. unfold History.popstate.
  erewrite seq_normal; [|reflexivity]. unfold reading.
  rewrite <- (add_trace_nil (set_location url w)) at 1 2.
  change (popstateListeners (add_trace [] (set_location url w)))
    with (popstateListeners w).
  rewrite (dispatchEvent_exact _ (listener_events (set_location url w) state));
    [done|].
  intros l es _. by apply listener_exact.
Qed.

(** ** The subscriber table under the operations *)

Lemma subscribers_bind name cb w n :
  Event.subscribers n (Event.bind name cb w).1
  = if decide (name = n) then Event.subscribers n w ++ [cb]
    else Event.subscribers n w.
Proof.
  unfold Event.bind, modify, Event.subscribers at 1. simpl.
  rewrite lookup_insert. by destruct (decide (name = n)) as [<-|].
Qed.

Lemma wf_init rs loc ttl : wf (init rs loc ttl).
Proof.
  intros name cb. unfold Event.subscribers. simpl.
  rewrite lookup_empty. simpl. by intros ?%elem_of_nil.
Qed.

Lemma wf_callbacks w w' : callbacks w' = callbacks w -> wf w -> wf w'.
Proof.
  intros E H name cb. unfold Event.subscribers. rewrite E. apply H.
Qed.

Lemma wf_bind name cb w : cb_ok name cb -> wf w -> wf (Event.bind name cb w).1.
Proof.
  intros Hcb Hwf n c. rewrite subscribers_bind.
  destruct (decide (name = n)) as [<-|]; [|apply Hwf].
  intros [?| ->%list_elem_of_singleton]%elem_of_app; [by apply Hwf|done].
Qed.

Lemma wf_bound self w : wf w -> wf (bound self w).
Proof. intros H. unfold bound. by repeat apply wf_bind. Qed.

Lemma subscribers_bound self w n :
  Event.subscribers n (bound self w)
  = Event.subscribers n w ++
    (if decide (n = "runRoute") then [CbLogRunRoute self]
     else if decide (n = "routeNotFound") then [CbLogRouteNotFound self]
     else if decide (n = "start") then [CbLogStart self]
     else []).
Proof.
  unfold bound. rewrite !subscribers_bind.
  repeat case_decide; subst; try done; by rewrite app_nil_r.
Qed.

Lemma start_exact self w :
  wf w ->
  App.start self w
  = (set_apps (alter (fun i => mkInstance (foo i) true) self (apps w))
       (set_popstateListeners (popstateListeners w ++ [Wrapped (HDispatch self)])
          (set_pushStateHandlers (pushStateHandlers w ++ [HDispatch self])
             (add_trace
                (Listen self (linkSelector (settings w))
                        (formSelector (settings w)) ::
                 trigger_events (bound self w) self "start" None)
                (set_intercepting true (bound self w))))),
     Normal).
Proof.
  intros Hwf. unfold App.start.
  do 3 (erewrite seq_normal; [|reflexivity]). fold (bound self w).
  erewrite seq_normal; [|reflexivity].
  erewrite seq_normal.
  2:{ apply (trigger_exact (set_intercepting true (bound self w)) self "start"
               None [Listen self (linkSelector (settings w))
                            (formSelector (settings w))]).
      - apply (wf_callbacks (bound self w)); [done|by apply wf_bound].
      - split; [done|by left]. }
  reflexivity.
Qed.

Lemma stop_exact self w :
  App.stop self w
  = ((Event.bind "stop" CbUndefined
        (set_intercepting false (add_trace [Unlisten self] w))).1, Normal).
Proof. reflexivity. Qed.

(** ** Programs keep the page well formed *)

Lemma exec_ok o w :
  wf w -> (exec o w).2 = Normal /\ exec_facts o w (exec o w).1.
Proof.
  intros Hwf. destruct o as [|self config|self|self|name id|h|r|r|state url];
    cbn [exec].
  - split; [done|]. split; simpl; by rewrite ?app_nil_r.
  - split; [done|]. split; simpl; by rewrite ?app_nil_r.
  - rewrite start_exact by done. split; [done|].
    split; [|done..].
    apply (wf_callbacks (bound self w)); [done|by apply wf_bound].
  - rewrite stop_exact. split; [done|].
    split; [|simpl; by rewrite ?app_nil_r..].
    apply wf_bind; [done|]. by apply (wf_callbacks w).
  - split; [done|].
    split; [by apply wf_bind|simpl; by rewrite ?app_nil_r..].
  - split; [done|]. by split.
  - rewrite pushState_exact by done. split; [done|].
    split; simpl; by rewrite ?app_nil_r.
  - rewrite replaceState_exact by done. split; [done|].
    split; simpl; by rewrite ?app_nil_r.
  - rewrite popstate_exact by done. split; [done|].
    split; simpl; by rewrite ?app_nil_r.
Qed.

Lemma run_snoc ops o w :
  wf w -> run (ops ++ [o]) w = exec o (run ops w).1.
Proof.
  unfold run. revert w. induction ops as [|o' ops IH]; intros w Hwf; simpl.
  - unfold seq, skip. by destruct (exec o w) as [w' []].
  - destruct (exec_ok o' w Hwf) as [Hn Hf]. unfold seq.
    destruct (exec o' w) as [w' c]; simpl in *; subst c.
    apply IH, Hf.
Qed.

Lemma run_ok ops w :
  wf w ->
  (run ops w).2 = Normal /\
  wf (run ops w).1 /\
  pushStateHandlers (run ops w).1 = pushStateHandlers w ++ registrations ops /\
  popstateListeners (run ops w).1
    = popstateListeners w ++ map Wrapped (registrations ops) /\
  routes (run ops w).1 = routes w /\
  docTitle (run ops w).1 = docTitle w.
Proof.
  unfold run. revert w. induction ops as [|o ops IH]; intros w Hwf; simpl.
  - by rewrite !app_nil_r.
  - destruct (exec_ok o w Hwf) as [Hn [H1 H2 H3 H4 H5]]. unfold seq.
    destruct (exec o w) as [w' c]; simpl in *; subst c.
    destruct (IH w' H1) as (? & ? & -> & -> & -> & ->).
    rewrite H2, H3, H4, H5. unfold registrations. simpl.
    by rewrite map_app, !app_assoc.
Qed.

(** Facts about every world a program can reach from a fresh page. *)
Lemma after_wf rs loc ttl ops : wf (after rs loc ttl ops).
Proof. apply run_ok, wf_init. Qed.

Lemma after_handlers rs loc ttl ops :
  pushStateHandlers (after rs loc ttl ops) = registrations ops.
Proof.
  unfold after. by destruct (run_ok ops _ (wf_init rs loc ttl)) as (_&_&->&_).
Qed.

Lemma after_listeners rs loc ttl ops :
  popstateListeners (after rs loc ttl ops) = map Wrapped (registrations ops).
Proof.
  unfold after. by destruct (run_ok ops _ (wf_init rs loc ttl)) as (_&_&_&->&_).
Qed.

Lemma after_routes rs loc ttl ops : routes (after rs loc ttl ops) = rs.
Proof.
  unfold after. by destruct (run_ok ops _ (wf_init rs loc ttl)) as (_&_&_&_&->&_).
Qed.

Lemma after_docTitle rs loc ttl ops : docTitle (after rs loc ttl ops) = ttl.
Proof.
  unfold after. by destruct (run_ok ops _ (wf_init rs loc ttl)) as (_&_&_&_&_&->).
Qed.

Lemma after_snoc rs loc ttl ops o :
  after rs loc ttl (ops ++ [o]) = (exec o (after rs loc ttl ops)).1.
Proof. unfold after. rewrite run_snoc; [done|apply wf_init]. Qed.

(** Every program runs to its end. *)
Lemma run_completes rs loc ttl ops : (run ops (init rs loc ttl)).2 = Normal.
Proof. apply run_ok, wf_init. Qed.

(** ** Reading a trace *)

Lemma omap_flat_map {A B C} (f : B -> option C) (g : A -> list B) l :
  omap f (flat_map g l) = flat_map (fun x => omap f (g x)) l.
Proof.
  induction l as [|x l IH]; simpl; [done|]. by rewrite omap_app, IH.
Qed.

Lemma flat_map_singleton {A B} (f : A -> B) l :
  flat_map (fun x => [f x]) l = map f l.
Proof. induction l; simpl; congruence. Qed.

Lemma flat_map_nil {A B} (l : list A) :
  flat_map (fun _ => @nil B) l = [].
Proof. induction l; simpl; congruence. Qed.

Lemma omap_cons_None {A B} (f : A -> option B) x l :
  f x = None -> omap f (x :: l) = omap f l.
Proof. intros E. simpl. by rewrite E. Qed.

Lemma omap_cons_Some {A B} (f : A -> option B) x y l :
  f x = Some y -> omap f (x :: l) = y :: omap f l.
Proof. intros E. simpl. by rewrite E. Qed.

Section Projections.

Context {B : Type} (f : event -> option B).
Hypothesis f_subscriber : forall id arg, f (Subscriber id arg) = None.
Hypothesis f_logger : forall l lv msg arg, f (Logger l lv msg arg) = None.
Hypothesis f_error : f TypeError = None.

(** Subscribers leave nothing that [f] keeps. *)
Lemma omap_call_events w arg cbs :
  omap f (flat_map (call_events w arg) cbs) = [].
Proof.
  induction cbs as [|cb cbs IH]; simpl; [done|].
  rewrite omap_app, IH, app_nil_r.
  destruct cb; simpl; by rewrite ?f_subscriber, ?f_logger, ?f_error.
Qed.

Lemma omap_trigger_events w self name arg :
  omap f (trigger_events w self name arg)
  = omap f [Trigger self name arg].
Proof.
  unfold trigger_events.
  change (Trigger self name arg :: ?l) with ([Trigger self name arg] ++ l).
  by rewrite omap_app, omap_call_events, app_nil_r.
Qed.

Lemma omap_dispatch_events w self r :
  omap f (dispatch_events w self (VRequest r))
  = omap f
      (Trigger self "lookupRoute" (Some (VRequest r)) ::
       RouteLookup (VString (method r)) (VString (path r)) ::
       match Route.lookup (method r) (path r) (routes w) with
       | Some rt => [Trigger self "runRoute" (Some (VRequest r));
                     RouteRun rt (VRequest r)]
       | None => [Trigger self "routeNotFound" (Some (VRequest r))]
       end).
Proof.
  unfold dispatch_events. simpl get. cbv iota. unfold lookup_values.
  rewrite omap_app, omap_trigger_events.
  change (RouteLookup ?m ?p :: ?l) with ([RouteLookup m p] ++ l).
  rewrite (omap_app _ [RouteLookup _ _]).
  destruct (Route.lookup (method r) (path r) (routes w)) as [rt|].
  - rewrite omap_app, omap_trigger_events. simpl.
    repeat case_match; simplify_eq; done.
  - rewrite omap_trigger_events. simpl.
    repeat case_match; simplify_eq; done.
Qed.

Lemma omap_dispatch_events_nil w self v :
  (forall s n a, f (Trigger s n a) = None) ->
  (forall m p, f (RouteLookup m p) = None) ->
  (forall rt a, f (RouteRun rt a) = None) ->
  omap f (dispatch_events w self v) = [].
Proof.
  intros Ht Hl Hr. unfold dispatch_events.
  rewrite omap_app, omap_trigger_events.
  rewrite (omap_cons_None _ _ _ (Ht _ _ _)).
  change (omap f [] ++ ?x) with x.
  destruct (get v FMethod), (get v FPath);
    try by rewrite (omap_cons_None _ _ _ f_error).
  rewrite (omap_cons_None _ _ _ (Hl _ _)).
  destruct (lookup_values _ _ _).
  - rewrite omap_app, omap_trigger_events.
    by rewrite (omap_cons_None _ _ _ (Ht _ _ _)), (omap_cons_None _ _ _ (Hr _ _)).
  - rewrite omap_trigger_events.
    by rewrite (omap_cons_None _ _ _ (Ht _ _ _)).
Qed.

End Projections.

Lemma invocations_handler_events w v hs :
  invocations (flat_map (handler_events w v) hs) = map (fun h => (h, v)) hs.
Proof.
  unfold invocations. rewrite omap_flat_map, <- flat_map_singleton.
  apply flat_map_ext. intros h. unfold handler_events.
  rewrite omap_cons_Some with (y := (h, v)) by done. f_equal.
  destruct h as [id|self]; [done|].
  by apply omap_dispatch_events_nil.
Qed.

Lemma host_calls_handler_events w v hs :
  host_calls (flat_map (handler_events w v) hs) = [].
Proof.
  unfold host_calls. rewrite omap_flat_map, <- (flat_map_nil hs).
  apply flat_map_ext. intros h. unfold handler_events.
  rewrite omap_cons_None by done.
  destruct h as [id|self]; [done|].
  by apply omap_dispatch_events_nil.
Qed.

Lemma delta_trace (m : M) w es :
  trace (m w).1 = trace w ++ es -> delta m w = es.
Proof. intros E. unfold delta. by rewrite E, drop_app_length. Qed.

Lemma delta_pushState w r :
  wf w ->
  delta (History.pushState r) w
  = HistoryPushState (VRequest r) (title r) (path r) ::
    flat_map (handler_events w (VRequest r)) (pushStateHandlers w).
Proof. intros Hwf. apply delta_trace. by rewrite pushState_exact. Qed.

Lemma delta_replaceState w r :
  wf w ->
  delta (History.replaceState r) w
  = HistoryReplaceState (VRequest r) (title r) (path r) ::
    flat_map (handler_events w (VRequest r)) (pushStateHandlers w).
Proof. intros Hwf. apply delta_trace. by rewrite replaceState_exact. Qed.

Lemma delta_popstate w state url :
  wf w ->
  delta (History.popstate state url) w
  = flat_map (listener_events (set_location url w) state) (popstateListeners w).
Proof. intros Hwf. apply delta_trace. by rewrite popstate_exact. Qed.

(** ** The history normaliser relays every request *)

(** C1. [pushState(request)] and [replaceState(request)] first call the
    host history with [(request, request.title, request.path)] - the one
    [history.pushState], the other [history.replaceState], and no further
    host call follows - and then call every handler registered through
    [onChange] once per registration, in registration order, each with
    that same request; both return normally.  Here [ops] is any program run
    on a fresh page and [registrations ops] are the handlers it passed to
    [onChange], in order. *)
Theorem pushState_relays_request rs loc ttl ops r :
  let w := after rs loc ttl ops in
  let calls := map (fun h => (h, VRequest r)) (registrations ops) in
  ((History.pushState r w).2 = Normal /\
   exists rest,
     delta (History.pushState r) w
     = HistoryPushState (VRequest r) (title r) (path r) :: rest /\
     host_calls rest = [] /\
     invocations rest = calls) /\
  ((History.replaceState r w).2 = Normal /\
   exists rest,
     delta (History.replaceState r) w
     = HistoryReplaceState (VRequest r) (title r) (path r) :: rest /\
     host_calls rest = [] /\
     invocations rest = calls).
Proof.
  intros w calls. pose proof (after_wf rs loc ttl ops) as Hwf. fold w in Hwf.
  split.
  - split; [by rewrite pushState_exact|].
    eexists. split; [by apply delta_pushState|].
    rewrite host_calls_handler_events, invocations_handler_events.
    unfold w. by rewrite after_handlers.
  - split; [by rewrite replaceState_exact|].
    eexists. split; [by apply delta_replaceState|].
    rewrite host_calls_handler_events, invocations_handler_events.
    unfold w. by rewrite after_handlers.
Qed.

Lemma invocations_handler_event w v h :
  invocations (handler_events w v h) = [(h, v)].
Proof.
  pose proof (invocations_handler_events w v [h]) as E.
  cbn [flat_map map] in E. by rewrite app_nil_r in E.
Qed.

Lemma page_loads_handler_event w v h :
  omap (fun e => match e with ForPageLoad => Some e | _ => None end)
    (handler_events w v h) = [].
Proof.
  unfold handler_events. rewrite omap_cons_None by done.
  destruct h as [id|self]; [done|]. by apply omap_dispatch_events_nil.
Qed.

Lemma invocations_listener_events w state hs :
  invocations (flat_map (listener_events w state) (map Wrapped hs))
  = map (fun h => (h, delivered w state)) hs.
Proof.
  induction hs as [|h hs IH]; [done|].
  cbn [flat_map map listener_events]. unfold invocations in *.
  rewrite !omap_app, IH.
  fold (invocations (handler_events w (delivered w state) h)).
  rewrite invocations_handler_event. by destruct (to_boolean state).
Qed.

Lemma page_loads_listener_events w state hs :
  page_loads (flat_map (listener_events w state) (map Wrapped hs))
  = if to_boolean state then 0 else length hs.
Proof.
  unfold page_loads.
  induction hs as [|h hs IH]; [by destruct (to_boolean state)|].
  cbn [flat_map map listener_events].
  rewrite !omap_app, !length_app, IH, page_loads_handler_event.
  by destruct (to_boolean state).
Qed.

(** ** Native back and forward navigation *)

Lemma popstate_invocations rs loc ttl ops state url :
  invocations (delta (History.popstate state url) (after rs loc ttl ops))
  = map (fun h => (h, delivered (set_location url (after rs loc ttl ops)) state))
        (registrations ops) /\
  page_loads (delta (History.popstate state url) (after rs loc ttl ops))
  = if to_boolean state then 0 else length (registrations ops).
Proof.
  rewrite delta_popstate by apply after_wf. rewrite after_listeners.
  by rewrite invocations_listener_events, page_loads_listener_events.
Qed.

(** C2, as the code has it.  On a popstate event every handler registered
    through [onChange] is called once per registration, in registration
    order.  When the event's state is truthy - every object is, so every
    Request - the handler receives that state itself and no Request is
    built; otherwise, so when the state is absent ([null]), it receives a
    Request that [Davis.Request.forPageLoad()] builds for that call. *)
Theorem popstate_delivers rs loc ttl ops state url :
  let w := after rs loc ttl ops in
  let es := delta (History.popstate state url) w in
  (History.popstate state url w).2 = Normal /\
  invocations es
  = map (fun h => (h, if to_boolean state then state
                      else VRequest (forPageLoad (set_location url w))))
        (registrations ops) /\
  page_loads es = (if to_boolean state then 0 else length (registrations ops)) /\
  (forall r, to_boolean (VRequest r) = true) /\
  to_boolean VNull = false.
Proof.
  intros w es. split; [by rewrite popstate_exact by apply after_wf|].
  destruct (popstate_invocations rs loc ttl ops state url) as [Hi Hl].
  unfold delivered in Hi. unfold es, w. by rewrite Hi, Hl.
Qed.

(** C2 as stated fails: a state of [0] is present, and the handler gets a
    page-load Request in its place. *)
Lemma popstate_present_state_replaced :
  present (VNumber (Finite 0)) = true /\
  invocations (delta (History.popstate (VNumber (Finite 0)) "/back")
                 (after [] "/" "home" [OnChange 7]))
  = [(HUser 7, VRequest (mkRequest "get" "/back" "home" []))] /\
  invocations (delta (History.popstate (VNumber (Finite 0)) "/back")
                 (after [] "/" "home" [OnChange 7]))
  <> [(HUser 7, VNumber (Finite 0))].
Proof. vm_compute. repeat split; congruence. Qed.

(** The falsy values that a history entry can carry. *)
Lemma falsy_states :
  Forall (fun v => present v = true /\ to_boolean v = false)
    [VNumber (Finite 0); VString ""; VBool false; VNumber NaN].
Proof. repeat constructor. Qed.

(** C8. A popstate state that is present but falsy is treated as absent:
    every registered handler receives the Request that
    [Davis.Request.forPageLoad()] builds, none receives the state; and a
    handler that does receive the event's state received a truthy one. *)
Theorem popstate_falsy_state_is_page_load rs loc ttl ops state url :
  present state = true ->
  to_boolean state = false ->
  let w := after rs loc ttl ops in
  let es := delta (History.popstate state url) w in
  invocations es
  = map (fun h => (h, VRequest (forPageLoad (set_location url w))))
        (registrations ops) /\
  page_loads es = length (registrations ops) /\
  (forall h, (h, state) ∉ invocations es) /\
  (forall h state', (h, state') ∈ invocations
                      (delta (History.popstate state' url) w) ->
                    to_boolean state' = true).
Proof.
  intros Hp Hf w es.
  destruct (popstate_invocations rs loc ttl ops state url) as [Hi Hl].
  fold w es in Hi, Hl. unfold delivered in Hi. rewrite Hf in Hi, Hl.
  split; [done|]. split; [done|]. split.
  - intros h. rewrite Hi. intros (h' & E & _)%list_elem_of_fmap.
    by simplify_eq.
  - intros h state'.
    destruct (popstate_invocations rs loc ttl ops state' url) as [Hi' _].
    fold w in Hi'. rewrite Hi'. unfold delivered.
    intros (h' & E & _)%list_elem_of_fmap.
    destruct (to_boolean state') eqn:Et; [done|]. by simplify_eq.
Qed.

Lemma popstate_falsy_state_is_page_load_witness :
  present (VNumber (Finite 0)) = true /\
  to_boolean (VNumber (Finite 0)) = false /\
  invocations (delta (History.popstate (VNumber (Finite 0)) "/back")
                 (after [] "/" "home" [OnChange 7]))
  = [(HUser 7, VRequest (mkRequest "get" "/back" "home" []))].
Proof.
  split; [reflexivity|]. split; [reflexivity|].
  pose proof (popstate_falsy_state_is_page_load [] "/" "home" [OnChange 7]
                (VNumber (Finite 0)) "/back" eq_refl eq_refl) as H.
  apply proj1 in H. vm_compute in H. vm_compute. exact H.
Defined.

(** ** Dispatch *)

Lemma steps_handler_event w r h :
  steps (handler_events w (VRequest r) h)
  = match h with
    | HUser _ => []
    | HDispatch self => dispatch_steps (routes w) self r
    end.
Proof.
  unfold steps, handler_events. rewrite omap_cons_None by done.
  destruct h as [id|self]; [done|].
  rewrite omap_dispatch_events by done. unfold dispatch_steps.
  by destruct (Route.lookup _ _ _).
Qed.

Lemma steps_handler_events w r hs :
  steps (flat_map (handler_events w (VRequest r)) hs)
  = flat_map (fun self => dispatch_steps (routes w) self r) (dispatchers hs).
Proof.
  induction hs as [|h hs IH]; [done|].
  cbn [flat_map]. unfold steps in *. rewrite omap_app, IH.
  fold (steps (handler_events w (VRequest r) h)). rewrite steps_handler_event.
  by destruct h.
Qed.

Lemma steps_listener_events w state hs :
  steps (flat_map (listener_events w state) (map Wrapped hs))
  = steps (flat_map (handler_events w (delivered w state)) hs).
Proof.
  induction hs as [|h hs IH]; [done|].
  cbn [flat_map map listener_events]. unfold steps in *.
  rewrite !omap_app, IH. by destruct (to_boolean state).
Qed.

Lemma dispatchers_registrations ops : dispatchers (registrations ops) = starts ops.
Proof.
  unfold dispatchers, registrations, starts.
  induction ops as [|o ops IH]; [done|].
  cbn [flat_map]. rewrite omap_app, IH. by destruct o.
Qed.

(** What the started apps do with a request, whichever way it arrives. *)
Lemma steps_pushState rs loc ttl ops r :
  steps (delta (History.pushState r) (after rs loc ttl ops))
  = flat_map (fun self => dispatch_steps rs self r) (starts ops).
Proof.
  rewrite delta_pushState by apply after_wf.
  unfold steps. rewrite omap_cons_None by done.
  fold (steps (flat_map (handler_events (after rs loc ttl ops) (VRequest r))
                 (pushStateHandlers (after rs loc ttl ops)))).
  by rewrite steps_handler_events, after_handlers, after_routes,
    dispatchers_registrations.
Qed.

Lemma steps_replaceState rs loc ttl ops r :
  steps (delta (History.replaceState r) (after rs loc ttl ops))
  = flat_map (fun self => dispatch_steps rs self r) (starts ops).
Proof.
  rewrite delta_replaceState by apply after_wf.
  unfold steps. rewrite omap_cons_None by done.
  fold (steps (flat_map (handler_events (after rs loc ttl ops) (VRequest r))
                 (pushStateHandlers (after rs loc ttl ops)))).
  by rewrite steps_handler_events, after_handlers, after_routes,
    dispatchers_registrations.
Qed.

Lemma steps_popstate rs loc ttl ops state url r :
  delivered (set_location url (after rs loc ttl ops)) state = VRequest r ->
  steps (delta (History.popstate state url) (after rs loc ttl ops))
  = flat_map (fun self => dispatch_steps rs self r) (starts ops).
Proof.
  intros E. rewrite delta_popstate by apply after_wf.
  rewrite after_listeners, steps_listener_events, E, steps_handler_events.
  change (routes (set_location url ?w)) with (routes w).
  by rewrite after_routes, dispatchers_registrations.
Qed.

(** C3. After one [start()] of the app [a] (and no other), each Request
    that the normaliser delivers - pushed, replaced, or handed on by a
    popstate listener - makes the app send one [lookupRoute] notification
    and do one route lookup; on a hit it then sends one [runRoute]
    notification and after it calls the matched route with the Request; on
    a miss it sends one [routeNotFound] notification and calls no route. *)
Theorem started_app_dispatches rs loc ttl ops a r :
  starts ops = [a] ->
  let w := after rs loc ttl ops in
  let expected :=
    Trigger a "lookupRoute" (Some (VRequest r)) ::
    RouteLookup (VString (method r)) (VString (path r)) ::
    match Route.lookup (method r) (path r) rs with
    | Some route => [Trigger a "runRoute" (Some (VRequest r));
                     RouteRun route (VRequest r)]
    | None => [Trigger a "routeNotFound" (Some (VRequest r))]
    end in
  steps (delta (History.pushState r) w) = expected /\
  steps (delta (History.replaceState r) w) = expected /\
  (forall state url,
     delivered (set_location url w) state = VRequest r ->
     steps (delta (History.popstate state url) w) = expected).
Proof.
  intros Hs w expected. unfold w.
  rewrite steps_pushState, steps_replaceState, Hs. cbn [flat_map].
  rewrite app_nil_r. split; [done|]. split; [done|]. intros state url E.
  rewrite (steps_popstate _ _ _ _ _ _ r) by done.
  rewrite Hs. cbn [flat_map]. by rewrite app_nil_r.
Qed.

Lemma started_app_dispatches_witness :
  starts [NewApp; Bind "runRoute" 9; Start 0] = [0] /\
  steps (delta (History.pushState bob)
           (after [welcome] "/" "home" [NewApp; Bind "runRoute" 9; Start 0]))
  = [Trigger 0 "lookupRoute" (Some (VRequest bob));
     RouteLookup (VString "get") (VString "/welcome/bob");
     Trigger 0 "runRoute" (Some (VRequest bob));
     RouteRun welcome (VRequest bob)] /\
  steps (delta (History.pushState nowhere)
           (after [welcome] "/" "home" [NewApp; Bind "runRoute" 9; Start 0]))
  = [Trigger 0 "lookupRoute" (Some (VRequest nowhere));
     RouteLookup (VString "get") (VString "/nowhere");
     Trigger 0 "routeNotFound" (Some (VRequest nowhere))].
Proof.
  split; [reflexivity|]. split.
  - pose proof (started_app_dispatches [welcome] "/" "home"
                  [NewApp; Bind "runRoute" 9; Start 0] 0 bob eq_refl) as H.
    apply proj1 in H. vm_compute in H. vm_compute. exact H.
  - pose proof (started_app_dispatches [welcome] "/" "home"
                  [NewApp; Bind "runRoute" 9; Start 0] 0 nowhere eq_refl) as H.
    apply proj1 in H. vm_compute in H. vm_compute. exact H.
Defined.

(** ** [start] twice *)

Lemma flat_map_replicate {A B} (f : A -> list B) n x :
  flat_map f (replicate n x) = concat (replicate n (f x)).
Proof. induction n as [|n IH]; simpl; congruence. Qed.

(** C9. [start()] is not idempotent.  Each call appends one more copy of
    the three log subscriptions ([runRoute], [routeNotFound], [start]) and
    registers one more [onChange] handler, on the push side and on the
    popstate side.  So after [n] calls on the app [a] a request that is
    pushed, replaced or carried by a popstate event runs the dispatch -
    notification, lookup, and the route callback on a hit - [n] times. *)
Theorem start_is_not_idempotent rs loc ttl ops a n r :
  starts ops = replicate n a ->
  let w := after rs loc ttl ops in
  let w' := after rs loc ttl (ops ++ [Start a]) in
  let once := dispatch_steps rs a r in
  (Event.subscribers "runRoute" w'
     = Event.subscribers "runRoute" w ++ [CbLogRunRoute a] /\
   Event.subscribers "routeNotFound" w'
     = Event.subscribers "routeNotFound" w ++ [CbLogRouteNotFound a] /\
   Event.subscribers "start" w'
     = Event.subscribers "start" w ++ [CbLogStart a] /\
   pushStateHandlers w' = pushStateHandlers w ++ [HDispatch a] /\
   popstateListeners w' = popstateListeners w ++ [Wrapped (HDispatch a)]) /\
  dispatchers (pushStateHandlers w) = replicate n a /\
  steps (delta (History.pushState r) w) = concat (replicate n once) /\
  steps (delta (History.replaceState r) w) = concat (replicate n once) /\
  (forall url, steps (delta (History.popstate (VRequest r) url) w)
               = concat (replicate n once)) /\
  steps (delta (History.pushState r) w')
  = concat (replicate (S n) once).
Proof.
  intros Hs w w' once. split.
  - unfold w'. rewrite after_snoc. fold w. cbn [exec].
    rewrite start_exact by apply after_wf. cbn [fst].
    change (Event.subscribers ?x (set_apps _ (set_popstateListeners _
              (set_pushStateHandlers _ (add_trace _ (set_intercepting _ ?y))))))
      with (Event.subscribers x y).
    by rewrite !subscribers_bound.
  - unfold w, w'. rewrite after_handlers, dispatchers_registrations.
    rewrite !steps_pushState, steps_replaceState.
    assert (starts (ops ++ [Start a]) = replicate (S n) a) as ->.
    { unfold starts in *. rewrite omap_app, Hs. simpl.
      by rewrite replicate_cons_app. }
    rewrite Hs, !flat_map_replicate. repeat split; try done.
    intros url. rewrite (steps_popstate _ _ _ _ _ _ r) by done.
    by rewrite Hs, flat_map_replicate.
Qed.

Lemma start_is_not_idempotent_witness :
  starts [NewApp; Start 0; Start 0] = replicate 2 0 /\
  steps (delta (History.pushState bob)
           (after [welcome] "/" "home" [NewApp; Start 0; Start 0]))
  = [Trigger 0 "lookupRoute" (Some (VRequest bob));
     RouteLookup (VString "get") (VString "/welcome/bob");
     Trigger 0 "runRoute" (Some (VRequest bob));
     RouteRun welcome (VRequest bob);
     Trigger 0 "lookupRoute" (Some (VRequest bob));
     RouteLookup (VString "get") (VString "/welcome/bob");
     Trigger 0 "runRoute" (Some (VRequest bob));
     RouteRun welcome (VRequest bob)].
Proof.
  split; [reflexivity|].
  pose proof (start_is_not_idempotent [welcome] "/" "home"
                [NewApp; Start 0; Start 0] 0 2 bob eq_refl) as H.
  apply proj2, proj2, proj1 in H. vm_compute in H. vm_compute. exact H.
Defined.

(** ** [stop] *)

(** C4 (the code differs).  [stop()] calls [unlisten] and then
    [this.bind('stop')]: no [stop] notification is sent and no subscriber
    of [stop] is called; the subscriber list of [stop] grows by an
    [undefined]. *)
Theorem stop_sends_no_notification w a :
  (App.stop a w).2 = Normal /\
  delta (App.stop a) w = [Unlisten a] /\
  intercepting (App.stop a w).1 = false /\
  Event.subscribers "stop" (App.stop a w).1
  = Event.subscribers "stop" w ++ [CbUndefined].
Proof.
  rewrite stop_exact. split; [done|]. split; [|split].
  - apply delta_trace. by rewrite stop_exact.
  - done.
  - cbn [fst]. rewrite subscribers_bind. by case_decide.
Qed.

(** A subscriber bound to [stop] hears nothing when the app stops. *)
Lemma stop_subscriber_not_called :
  Event.subscribers "stop"
    (after [] "/" "home" [NewApp; Bind "stop" 5; Start 0]) = [CbUser 5] /\
  delta (App.stop 0) (after [] "/" "home" [NewApp; Bind "stop" 5; Start 0])
  = [Unlisten 0].
Proof. vm_compute. done. Qed.

(** C5 (the code differs).  [running] is [false] after construction and
    [true] after [start()]; [stop()] does not write it, so it is still
    [true] after [stop()]. *)
Theorem running_survives_stop rs loc ttl ops :
  let a := length (apps (after rs loc ttl ops)) in
  App.is_running a (after rs loc ttl (ops ++ [NewApp])) = Some false /\
  App.is_running a (after rs loc ttl (ops ++ [NewApp; Start a])) = Some true /\
  App.is_running a (after rs loc ttl (ops ++ [NewApp; Start a; Stop a]))
  = Some true.
Proof.
  intros a.
  assert (App.is_running a (after rs loc ttl (ops ++ [NewApp])) = Some false)
    as H0.
  { rewrite after_snoc. unfold App.is_running. cbn.
    by rewrite list_lookup_middle. }
  assert (App.is_running a (after rs loc ttl (ops ++ [NewApp; Start a]))
          = Some true) as H1.
  { change [NewApp; Start a] with ([NewApp] ++ [Start a]).
    rewrite app_assoc, after_snoc. cbn [exec].
    rewrite start_exact by apply after_wf.
    unfold App.is_running in *. cbn [fst apps set_apps].
    rewrite list_lookup_alter. case_decide; [|done].
    destruct (apps (after rs loc ttl (ops ++ [NewApp])) !! a); by simplify_eq. }
  split; [done|]. split; [done|].
  change [NewApp; Start a; Stop a] with ([NewApp; Start a] ++ [Stop a]).
  by rewrite app_assoc, after_snoc.
Qed.

(** ** Route lookup *)

(** C6. [Davis.Route.lookup(method, path)] scans the routes in
    registration order; a route is a match when its method is exactly the
    requested one and its pattern accepts the path; the result is the first
    match - every route registered before it fails, whatever matches after
    it - and the "not found" sentinel exactly when no route matches. *)
Theorem lookup_first_match m p rs :
  (forall r, Route.lookup m p rs = Some r <->
     exists before after',
       rs = before ++ r :: after' /\
       Route.matches r m p = true /\
       forall x, x ∈ before -> Route.matches x m p = false) /\
  (Route.lookup m p rs = None <->
     forall x, x ∈ rs -> Route.matches x m p = false) /\
  (forall r, Route.matches r m p = true <->
     Route.method r = m /\ is_Some (Route.match_path (Route.pattern r) p)).
Proof.
  split; [|split].
  - induction rs as [|x rs IH]; intros r; simpl.
    + split; [done|]. intros (b & a' & E & _). by destruct b.
    + destruct (Route.matches x m p) eqn:Hx.
      * split.
        -- intros [= <-]. exists [], rs. repeat split; [done|].
           by intros y ?%elem_of_nil.
        -- intros (b & a' & E & Hr & Hb). destruct b as [|y b]; simpl in E.
           ++ by simplify_eq.
           ++ simplify_eq. specialize (Hb y ltac:(left)). congruence.
      * rewrite IH. split.
        -- intros (b & a' & -> & Hr & Hb). exists (x :: b), a'.
           repeat split; [done|]. by intros y [->|?]%elem_of_cons; [|apply Hb].
        -- intros (b & a' & E & Hr & Hb). destruct b as [|y b]; simpl in E.
           ++ simplify_eq. congruence.
           ++ simplify_eq. exists b, a'. repeat split; [done|].
              intros z Hz. apply Hb. by right.
  - induction rs as [|x rs IH]; simpl.
    + split; [|done]. by intros _ y ?%elem_of_nil.
    + destruct (Route.matches x m p) eqn:Hx.
      * split; [done|]. intros H. specialize (H x ltac:(left)). congruence.
      * rewrite IH. split.
        -- by intros H y [->|?]%elem_of_cons; [|apply H].
        -- intros H y Hy. apply H. by right.
  - intros r. unfold Route.matches.
    destruct (String.eqb_spec (Route.method r) m) as [->|Hne].
    + destruct (Route.match_path _ _); split; try done.
      * by intros [_ [? ?]].
    + split; [done|]. by intros [? _].
Qed.

(** The examples of the specification. *)
Lemma lookup_examples :
  Route.match_path "/welcome/:name" "/welcome/bob" = Some [("name", "bob")] /\
  Route.lookup "get" "/welcome/bob" [welcome; welcome_bob] = Some welcome /\
  Route.lookup "get" "/welcome/bob" [welcome_bob; welcome] = Some welcome_bob /\
  Route.lookup "post" "/welcome/bob" [welcome; welcome_bob] = None.
Proof. vm_compute. done. Qed.

(** ** The handler lists only grow *)

Lemma extends_refl w : extends w w.
Proof. by split. Qed.

Lemma extends_trans w1 w2 w3 : extends w1 w2 -> extends w2 w3 -> extends w1 w3.
Proof. intros [? ?] [? ?]. split; by etrans. Qed.

Lemma monotone_trace_only m : trace_only m -> monotone m.
Proof. intros H w. destruct (H w) as [es ->]. by split. Qed.

Lemma monotone_seq a b : monotone a -> monotone b -> monotone (a >>> b).
Proof.
  intros Ha Hb w. unfold seq. specialize (Ha w).
  destruct (a w) as [w1 []]; simpl in *; [|done].
  eapply extends_trans; [done|apply Hb].
Qed.

Lemma monotone_reading {A} (f : World -> A) k :
  (forall x, monotone (k x)) -> monotone (reading f k).
Proof. intros H w. apply H. Qed.

Lemma monotone_modify f :
  (forall w, extends w (f w)) -> monotone (modify f).
Proof. intros H w. apply H. Qed.

Lemma monotone_bind name cb : monotone (Event.bind name cb).
Proof. apply monotone_modify. intros w. by split. Qed.

Lemma monotone_onChange h : monotone (History.onChange h).
Proof.
  apply monotone_seq; apply monotone_modify; intros w; split; simpl;
    try done; by apply prefix_app_r.
Qed.

Lemma monotone_listen self : monotone (Listener.listen self).
Proof.
  apply monotone_seq.
  - apply monotone_trace_only, trace_only_reading. intros s.
    apply trace_only_emit.
  - apply monotone_modify. intros w. by split.
Qed.

Lemma monotone_host_call e url : monotone (emit e >>> modify (set_location url)).
Proof.
  apply monotone_seq.
  - apply monotone_trace_only, trace_only_emit.
  - apply monotone_modify. intros w. by split.
Qed.

Lemma monotone_exec o : monotone (exec o).
Proof.
  destruct o as [|self config|self|self|name id|h|r|r|state url]; cbn [exec].
  - apply monotone_modify. intros w. by split.
  - apply monotone_reading. intros s. apply monotone_modify.
    intros w. by split.
  - unfold App.start.
    do 3 (apply monotone_seq; [apply monotone_bind|]).
    apply monotone_seq; [apply monotone_listen|].
    apply monotone_seq; [apply monotone_trace_only, trace_only_trigger|].
    apply monotone_seq; [apply monotone_onChange|].
    apply monotone_modify. intros w. by split.
  - intros w. rewrite stop_exact. by split.
  - apply monotone_bind.
  - apply monotone_onChange.
  - apply monotone_seq; [apply monotone_host_call|].
    apply monotone_reading. intros hs. apply monotone_trace_only.
    apply trace_only_forEach. intros h. apply trace_only_call_handler.
  - apply monotone_seq; [apply monotone_host_call|].
    apply monotone_reading. intros hs. apply monotone_trace_only.
    apply trace_only_forEach. intros h. apply trace_only_call_handler.
  - apply monotone_seq.
    + apply monotone_modify. intros w. by split.
    + apply monotone_reading. intros ls. apply monotone_trace_only.
      apply trace_only_dispatchEvent. intros l. apply trace_only_call_listener.
Qed.

Lemma monotone_run ops : monotone (run ops).
Proof.
  unfold run. induction ops as [|o ops IH]; simpl.
  - intros w. by split.
  - apply monotone_seq; [apply monotone_exec|done].
Qed.

Lemma handlers_stop_frame a w :
  pushStateHandlers (App.stop a w).1 = pushStateHandlers w /\
  popstateListeners (App.stop a w).1 = popstateListeners w.
Proof. by rewrite stop_exact. Qed.

(** C7. The push-state handler list is append-only.  [onPushState] and
    [onChange] add the handler at the end; whatever a page does with the
    library - construct, configure, start or stop an app, subscribe,
    register a handler, push or replace a state, navigate back or forward -
    and whether or not it throws, the handlers registered before are still
    there, in the same places, and so are the popstate listeners; [stop()]
    leaves both lists as they are, so the handler of an app that was
    started and stopped is still registered. *)
Theorem handlers_append_only :
  (forall h w, pushStateHandlers (History.onPushState h w).1
               = pushStateHandlers w ++ [h]) /\
  (forall h w, pushStateHandlers (History.onChange h w).1
               = pushStateHandlers w ++ [h]) /\
  (forall o w, pushStateHandlers w `prefix_of` pushStateHandlers (exec o w).1) /\
  (forall ops w,
     pushStateHandlers w `prefix_of` pushStateHandlers (run ops w).1 /\
     popstateListeners w `prefix_of` popstateListeners (run ops w).1) /\
  (forall a w,
     pushStateHandlers (App.stop a w).1 = pushStateHandlers w /\
     popstateListeners (App.stop a w).1 = popstateListeners w) /\
  (forall rs loc ttl ops a,
     HDispatch a ∈ pushStateHandlers
                     (after rs loc ttl (ops ++ [Start a; Stop a]))).
Proof.
  split; [done|]. split; [done|].
  split; [intros o w; apply monotone_exec|].
  split; [intros ops w; apply monotone_run|].
  split; [intros a w; apply handlers_stop_frame|].
  intros rs loc ttl ops a.
  change [Start a; Stop a] with ([Start a] ++ [Stop a]).
  rewrite app_assoc, after_snoc. cbn [exec].
  destruct (handlers_stop_frame a (after rs loc ttl (ops ++ [Start a])))
    as [-> _].
  rewrite after_handlers. unfold registrations.
  rewrite flat_map_app. apply elem_of_app. right. by left.
Qed.

(** ** One [settings] object *)

Lemma delta_start self w :
  wf w ->
  delta (App.start self) w
  = Listen self (linkSelector (settings w)) (formSelector (settings w)) ::
    trigger_events (bound self w) self "start" None.
Proof. intros Hwf. apply delta_trace. by rewrite start_exact. Qed.

(** C10. The [settings] object sits on the prototype, so every instance
    reads the same one.  [configure(config)] on the app [a] calls [config]
    on that object: afterwards any app [b] reads the settings as [config]
    left them - its [start()] logs through the logger they name - and no
    instance field ([foo], [running]) has changed. *)
Theorem settings_shared_between_apps rs loc ttl ops a b config :
  let w := after rs loc ttl ops in
  let w' := (App.configure a config w).1 in
  (App.configure a config w).2 = Normal /\
  settings_of b w' = config (settings_of a w) /\
  apps w' = apps w /\
  (forall c, App.is_running c w' = App.is_running c w) /\
  Logger (logger (config (settings_of a w))) Info "application started" None
    ∈ delta (App.start b) w'.
Proof.
  intros w w'. repeat split; try done.
  assert (wf w') as Hwf by (apply (wf_callbacks w); [done|apply after_wf]).
  rewrite delta_start by done. right. unfold trigger_events. right.
  rewrite subscribers_bound. repeat case_decide; try done.
  rewrite flat_map_app. apply elem_of_app. right. by left.
Qed.

(** Two apps: the second logs through the logger the first configured, and
    is not running. *)
Lemma settings_shared_example :
  settings_of 1
    (after [] "/" "home" [NewApp; NewApp; Configure 0 (use_logger 7)])
  = mkSettings "a" "form" 7 /\
  App.is_running 1
    (after [] "/" "home" [NewApp; NewApp; Configure 0 (use_logger 7)])
  = Some false /\
  delta (App.start 1)
    (after [] "/" "home" [NewApp; NewApp; Configure 0 (use_logger 7)])
  = [Listen 1 "a" "form"; Trigger 1 "start" None;
     Logger 7 Info "application started" None].
Proof. vm_compute. done. Qed.

(** * Further properties *)

(** ** Delivering a request leaves the registrations alone *)

Lemma same_registry_trace_only m w :
  trace_only m -> same_registry w (m w).1.
Proof. intros H. destruct (H w) as [es ->]. by repeat split. Qed.

Lemma same_registry_trans w1 w2 w3 :
  same_registry w1 w2 -> same_registry w2 w3 -> same_registry w1 w3.
Proof.
  unfold same_registry. intros H1 H2.
  destruct H1 as (?&?&?&?&?&?&?&?), H2 as (?&?&?&?&?&?&?&?).
  repeat split; congruence.
Qed.

Lemma same_registry_relay e url v w :
  same_registry w
    (((emit e >>> modify (set_location url)) >>>
      reading pushStateHandlers (forEach (fun h => call_handler h v))) w).1.
Proof.
  erewrite seq_normal; [|reflexivity].
  eapply same_registry_trans; [|apply same_registry_trace_only].
  - by repeat split.
  - apply trace_only_reading. intros l. apply trace_only_forEach.
    intros h. apply trace_only_call_handler.
Qed.

(** X1. From any state of the page, and whether or not a handler throws,
    [pushState], [replaceState] and a popstate event change nothing but the
    trace and the location: the handler lists, the subscriber table, the
    routes, the settings, the instances and the interception stay as they
    were. *)
Theorem delivery_keeps_registry w r state url :
  same_registry w (History.pushState r w).1 /\
  same_registry w (History.replaceState r w).1 /\
  same_registry w (History.popstate state url w).1.
Proof.
  split; [|split].
  - apply same_registry_relay.
  - apply same_registry_relay.
  - unfold History.popstate. erewrite seq_normal; [|reflexivity].
    eapply same_registry_trans; [|apply same_registry_trace_only].
    + by repeat split.
    + apply trace_only_reading. intros l. apply trace_only_dispatchEvent.
      intros x. apply trace_only_call_listener.
Qed.

(** ** [pushState], [replaceState] and popstate side by side *)

(** X2. [replaceState(request)] does what [pushState(request)] does, but
    for the host call: both return normally and leave the same page, the
    traces differ in their first entry only. *)
Theorem replaceState_differs_in_host_call rs loc ttl ops r :
  let w := after rs loc ttl ops in
  exists rest,
    History.pushState r w
    = (add_trace (HistoryPushState (VRequest r) (title r) (path r) :: rest)
         (set_location (path r) w), Normal) /\
    History.replaceState r w
    = (add_trace (HistoryReplaceState (VRequest r) (title r) (path r) :: rest)
         (set_location (path r) w), Normal).
Proof.
  intros w. eexists. split.
  - apply pushState_exact, after_wf.
  - apply replaceState_exact, after_wf.
Qed.

Lemma listener_events_truthy w state hs :
  to_boolean state = true ->
  flat_map (listener_events w state) (map Wrapped hs)
  = flat_map (handler_events w state) hs.
Proof.
  intros Ht. induction hs as [|h hs IH]; [done|].
  cbn [flat_map map listener_events]. unfold delivered. rewrite Ht, IH.
  done.
Qed.

(** X3. A request round-trips through the history: the popstate event that
    hands back the state of [pushState(request)] makes the library do
    exactly what the push did after its host call - the same handler calls,
    notifications, lookups and route runs, in the same order. *)
Theorem popstate_replays_pushState rs loc ttl ops r url :
  let w := after rs loc ttl ops in
  delta (History.pushState r) w
  = HistoryPushState (VRequest r) (title r) (path r) ::
    delta (History.popstate (VRequest r) url) w.
Proof.
  intros w. unfold w.
  rewrite delta_pushState, delta_popstate by apply after_wf.
  rewrite after_listeners, after_handlers.
  by rewrite listener_events_truthy.
Qed.

(** X4. [onChange] keeps the two sides in step: on every page a program
    reaches, the popstate listeners are the wrapped push-state handlers,
    one for one and in the same order. *)
Theorem listeners_mirror_handlers rs loc ttl ops :
  popstateListeners (after rs loc ttl ops)
  = map History.wrapped (pushStateHandlers (after rs loc ttl ops)).
Proof. by rewrite after_listeners, after_handlers. Qed.




(** ** The subscriber table of a program *)

Lemma exec_subscribers o w n :
  wf w ->
  Event.subscribers n (exec o w).1 = Event.subscribers n w ++ added n o.
Proof.
  intros Hwf. destruct o as [|self config|self|self|name id|h|r|r|state url];
    cbn [exec added].
  - by rewrite app_nil_r.
  - by rewrite app_nil_r.
  - rewrite start_exact by done. cbn [fst].
    change (Event.subscribers ?x (set_apps _ (set_popstateListeners _
              (set_pushStateHandlers _ (add_trace _ (set_intercepting _ ?y))))))
      with (Event.subscribers x y).
    by rewrite subscribers_bound.
  - rewrite stop_exact. cbn [fst]. rewrite subscribers_bind.
    change (Event.subscribers n (set_intercepting _ (add_trace _ w)))
      with (Event.subscribers n w).
    repeat case_decide; subst; try done; by rewrite app_nil_r.
  - rewrite subscribers_bind.
    repeat case_decide; subst; try done; by rewrite app_nil_r.
  - by rewrite app_nil_r.
  - rewrite pushState_exact by done. by rewrite app_nil_r.
  - rewrite replaceState_exact by done. by rewrite app_nil_r.
  - rewrite popstate_exact by done. by rewrite app_nil_r.
Qed.

Lemma after_subscribers rs loc ttl ops n :
  Event.subscribers n (after rs loc ttl ops) = flat_map (added n) ops.
Proof.
  induction ops as [|o ops IH] using rev_ind.
  - unfold after, Event.subscribers. simpl. by rewrite lookup_empty.
  - rewrite after_snoc, exec_subscribers by apply after_wf.
    rewrite IH, flat_map_app. simpl. by rewrite app_nil_r.
Qed.

(** The log subscriptions under the events of [start] are those of the
    [start] calls; no other event has any. *)
Lemma log_subscriptions rs loc ttl ops n :
  omap log_subscription (Event.subscribers n (after rs loc ttl ops))
  = if decide (n = "runRoute" \/ n = "routeNotFound" \/ n = "start")
    then starts ops else [].
Proof.
  rewrite after_subscribers. unfold starts.
  induction ops as [|o ops IH]; [by case_decide|].
  cbn [flat_map]. rewrite omap_app, IH. clear IH.
  destruct o; cbn [added omap list_omap]; repeat case_decide;
    try done; intuition congruence.
Qed.

(** ** Counting log entries *)

Lemma log_lines_app msg es1 es2 :
  log_lines msg (es1 ++ es2) = log_lines msg es1 + log_lines msg es2.
Proof. unfold log_lines. by rewrite omap_app, length_app. Qed.

Ltac count_lines IH :=
  cbn [flat_map]; rewrite flat_map_app, log_lines_app, IH;
  match goal with
  | o : op |- _ =>
      destruct o; cbn [added starts omap list_omap flat_map];
      repeat case_decide; subst; try done; cbn; try lia;
      exfalso; intuition congruence
  end.

Lemma runRoute_lines w arg ops n :
  log_lines "runRoute: " (flat_map (call_events w arg) (flat_map (added n) ops))
  = if decide (n = "runRoute") then length (starts ops) else 0.
Proof.
  unfold starts. induction ops as [|o ops IH]; [by case_decide|].
  count_lines IH.
Qed.

Lemma routeNotFound_lines w arg ops n :
  log_lines "routeNotFound: "
    (flat_map (call_events w arg) (flat_map (added n) ops))
  = if decide (n = "routeNotFound") then length (starts ops) else 0.
Proof.
  unfold starts. induction ops as [|o ops IH]; [by case_decide|].
  count_lines IH.
Qed.

Lemma started_lines w arg ops n :
  log_lines "application started"
    (flat_map (call_events w arg) (flat_map (added n) ops))
  = if decide (n = "start") then length (starts ops) else 0.
Proof.
  unfold starts. induction ops as [|o ops IH]; [by case_decide|].
  count_lines IH.
Qed.

Lemma log_lines_trigger msg w self name arg :
  log_lines msg (trigger_events w self name arg)
  = log_lines msg (flat_map (call_events w arg) (Event.subscribers name w)).
Proof. done. Qed.

(** The log entries of one handler call on a reachable page. *)
Lemma log_lines_handler rs loc ttl ops r h :
  let w := after rs loc ttl ops in
  let n := length (starts ops) in
  let hit := is_Some (Route.lookup (method r) (path r) rs) in
  log_lines "runRoute: " (handler_events w (VRequest r) h)
  = match h with
    | HUser _ => 0
    | HDispatch _ => if decide hit then n else 0
    end /\
  log_lines "routeNotFound: " (handler_events w (VRequest r) h)
  = match h with
    | HUser _ => 0
    | HDispatch _ => if decide hit then 0 else n
    end.
Proof.
  intros w n hit. destruct h as [id|self]; [done|].
  unfold handler_events, dispatch_events.
  change (Handler ?a ?b :: ?l) with ([Handler a b] ++ l).
  cbn [get]. unfold lookup_values, w. rewrite after_routes.
  change (RouteLookup ?a ?b :: ?l) with ([RouteLookup a b] ++ l).
  rewrite !log_lines_app, !log_lines_trigger, !after_subscribers.
  rewrite runRoute_lines, routeNotFound_lines.
  unfold hit. destruct (Route.lookup (method r) (path r) rs) as [rt|].
  - rewrite !log_lines_app, !log_lines_trigger, !after_subscribers.
    rewrite runRoute_lines, routeNotFound_lines.
    destruct (decide (is_Some (Some rt))) as [_|Hn]; [|by destruct Hn].
    repeat case_decide; try done; split; unfold n; cbn; lia.
  - rewrite !log_lines_trigger, !after_subscribers.
    rewrite runRoute_lines, routeNotFound_lines.
    destruct (decide (is_Some (@None Route.t))) as [[? [=]]|_].
    repeat case_decide; try done; split; unfold n; cbn; lia.
Qed.

Lemma log_lines_handlers msg (f : handler -> list event) k hs :
  (forall h, log_lines msg (f h)
             = match h with HUser _ => 0 | HDispatch _ => k end) ->
  log_lines msg (flat_map f hs) = length (dispatchers hs) * k.
Proof.
  intros Hf. induction hs as [|h hs IH]; [done|].
  cbn [flat_map]. rewrite log_lines_app, IH, Hf.
  by destruct h.
Qed.

(** X6. The log grows with the square of the number of [start()] calls:
    after [n] calls on an app, one pushed request that hits a route writes
    [n * n] [runRoute] log entries and no [routeNotFound] entry (each of
    the [n] dispatch callbacks notifies each of the [n] log subscriptions);
    one that misses writes [n * n] [routeNotFound] entries and no
    [runRoute] entry. *)
Theorem log_entries_grow_quadratically rs loc ttl ops a n r :
  starts ops = replicate n a ->
  let d := delta (History.pushState r) (after rs loc ttl ops) in
  match Route.lookup (method r) (path r) rs with
  | Some _ =>
      log_lines "runRoute: " d = n * n /\ log_lines "routeNotFound: " d = 0
  | None =>
      log_lines "runRoute: " d = 0 /\ log_lines "routeNotFound: " d = n * n
  end.
Proof.
  intros Hs d. unfold d. rewrite delta_pushState by apply after_wf.
  change (HistoryPushState ?x ?y ?z :: ?l)
    with ([HistoryPushState x y z] ++ l).
  rewrite !log_lines_app, after_handlers.
  pose proof (log_lines_handler rs loc ttl ops r) as Hh. cbv zeta in Hh.
  assert (length (starts ops) = n) as Hn by (by rewrite Hs, length_replicate).
  rewrite Hn in Hh.
  rewrite (log_lines_handlers "runRoute: " _ _ _ (fun h => proj1 (Hh h))).
  rewrite (log_lines_handlers "routeNotFound: " _ _ _ (fun h => proj2 (Hh h))).
  rewrite dispatchers_registrations, Hn.
  destruct (Route.lookup (method r) (path r) rs) as [rt|].
  - destruct (decide (is_Some (Some rt))) as [_|Hx]; [|by destruct Hx].
    split; cbn; lia.
  - destruct (decide (is_Some (@None Route.t))) as [[? [=]]|_].
    split; cbn; lia.
Qed.

Lemma log_entries_grow_quadratically_witness :
  starts [NewApp; Start 0; Start 0; Start 0] = replicate 3 0 /\
  log_lines "runRoute: "
    (delta (History.pushState bob)
       (after [welcome] "/" "home" [NewApp; Start 0; Start 0; Start 0])) = 9.
Proof.
  split; [reflexivity|].
  pose proof (log_entries_grow_quadratically [welcome] "/" "home"
                [NewApp; Start 0; Start 0; Start 0] 0 3 bob eq_refl) as H.
  apply proj1 in H. vm_compute in H. vm_compute. exact H.
Defined.

(** X7. Every [start()] logs "application started" once for each [start()]
    so far, itself included: the log subscriptions of the earlier calls
    are still bound when the [start] notification is sent. *)
Theorem start_logs_once_per_start rs loc ttl ops a n :
  starts ops = replicate n a ->
  log_lines "application started"
    (delta (App.start a) (after rs loc ttl ops)) = S n.
Proof.
  intros Hs. rewrite delta_start by apply after_wf.
  change (Listen ?x ?y ?z :: ?l) with ([Listen x y z] ++ l).
  rewrite log_lines_app, log_lines_trigger, subscribers_bound.
  rewrite after_subscribers, flat_map_app, log_lines_app.
  change (call_events (bound a ?w)) with (call_events w).
  rewrite started_lines, Hs, length_replicate.
  repeat case_decide; try done. cbn. lia.
Qed.

Lemma start_logs_once_per_start_witness :
  starts [NewApp; Start 0; Stop 0] = replicate 1 0 /\
  log_lines "application started"
    (delta (App.start 0) (after [] "/" "home" [NewApp; Start 0; Stop 0])) = 2.
Proof.
  split; [reflexivity|].
  pose proof (start_logs_once_per_start [] "/" "home"
                [NewApp; Start 0; Stop 0] 0 1 eq_refl) as H.
  vm_compute in H. vm_compute. exact H.
Defined.

(** ** The logger is read when the entry is written *)

Lemma logs_through_call w arg cb :
  Forall (logs_through (logger (settings w))) (call_events w arg cb).
Proof. destruct cb; by repeat constructor. Qed.

Lemma logs_through_trigger w self name arg :
  Forall (logs_through (logger (settings w))) (trigger_events w self name arg).
Proof.
  constructor; [done|]. apply Forall_flat_map, Forall_forall.
  intros cb _. apply logs_through_call.
Qed.

Lemma logs_through_handler w v h :
  Forall (logs_through (logger (settings w))) (handler_events w v h).
Proof.
  constructor; [done|]. destruct h as [id|self]; [done|].
  unfold dispatch_events. apply Forall_app. split.
  - apply logs_through_trigger.
  - destruct (get v FMethod), (get v FPath); try by repeat constructor.
    constructor; [done|]. destruct (lookup_values _ _ _).
    + apply Forall_app. split; [apply logs_through_trigger|].
      by repeat constructor.
    + apply logs_through_trigger.
Qed.

Lemma logs_through_listener w state l :
  Forall (logs_through (logger (settings w))) (listener_events w state l).
Proof.
  destruct l as [h]. apply Forall_app. split.
  - destruct (to_boolean state); by repeat constructor.
  - apply logs_through_handler.
Qed.

(** X8. The log subscriptions read [self.settings.logger] when they write,
    not when [start] binds them: after [configure(config)] on any app,
    every log entry that a pushed, replaced or popped request causes - in
    whichever app, started however long before - goes to the logger that
    [config] left in the settings. *)
Theorem logger_read_at_call_time rs loc ttl ops b config r state url :
  let w := after rs loc ttl (ops ++ [Configure b config]) in
  let current := logger (config (settings (after rs loc ttl ops))) in
  Forall (logs_through current) (delta (History.pushState r) w) /\
  Forall (logs_through current) (delta (History.replaceState r) w) /\
  Forall (logs_through current) (delta (History.popstate state url) w).
Proof.
  intros w current.
  assert (logger (settings w) = current) as <-
    by (unfold w; by rewrite after_snoc).
  unfold w. rewrite delta_pushState, delta_replaceState, delta_popstate
    by apply after_wf.
  fold w. split; [|split].
  - constructor; [done|]. apply Forall_flat_map, Forall_forall.
    intros h _. apply logs_through_handler.
  - constructor; [done|]. apply Forall_flat_map, Forall_forall.
    intros h _. apply logs_through_handler.
  - apply Forall_flat_map, Forall_forall.
    intros l _. apply (logs_through_listener (set_location url w)).
Qed.

(** An app started with the default logger logs through logger 7 once the
    settings name it. *)
Lemma logger_read_at_call_time_example :
  omap (fun e => match e with Logger l _ _ _ => Some l | _ => None end)
    (delta (History.pushState bob)
       (after [welcome] "/" "home"
          [NewApp; Start 0; NewApp; Configure 1 (use_logger 7)]))
  = [7].
Proof. vm_compute. done. Qed.

(** ** [running] *)

Lemma exec_running o w a :
  wf w ->
  App.is_running a w = Some true ->
  App.is_running a (exec o w).1 = Some true.
Proof.
  intros Hwf. unfold App.is_running.
  destruct o as [|self config|self|self|name id|h|r|r|state url];
    cbn [exec]; try done.
  - simpl. intros H. destruct (apps w !! a) as [i|] eqn:E; [|done].
    by rewrite (lookup_app_l_Some _ _ _ _ E).
  - rewrite start_exact by done. cbn [fst apps set_apps].
    rewrite list_lookup_alter. case_decide; [subst self|done].
    by destruct (apps w !! a).
  - by rewrite pushState_exact.
  - by rewrite replaceState_exact.
  - by rewrite popstate_exact.
Qed.

(** X9. Nothing resets [running]: an app that is running stays running
    through every later operation - [stop()] on it included. *)
Theorem running_is_never_reset rs loc ttl ops ops' a :
  App.is_running a (after rs loc ttl ops) = Some true ->
  App.is_running a (after rs loc ttl (ops ++ ops')) = Some true.
Proof.
  intros H. induction ops' as [|o ops' IH] using rev_ind.
  - by rewrite app_nil_r.
  - rewrite app_assoc, after_snoc. apply exec_running; [apply after_wf|done].
Qed.

Lemma running_is_never_reset_witness :
  App.is_running 0 (after [] "/" "home" [NewApp; Start 0]) = Some true /\
  App.is_running 0
    (after [] "/" "home" ([NewApp; Start 0] ++ [Stop 0; NewApp; Stop 0]))
  = Some true.
Proof.
  split; [reflexivity|].
  apply (running_is_never_reset [] "/" "home" [NewApp; Start 0]
           [Stop 0; NewApp; Stop 0] 0). reflexivity.
Defined.

(** ** [stop] and the dispatch *)

Lemma trigger_events_ext w w' self name arg :
  Event.subscribers name w' = Event.subscribers name w ->
  settings w' = settings w ->
  trigger_events w' self name arg = trigger_events w self name arg.
Proof.
  intros Hs Hl. unfold trigger_events. rewrite Hs. f_equal.
  apply flat_map_ext. intros cb. unfold call_events, settings_of.
  by rewrite Hl.
Qed.

Lemma handler_events_ext w w' v h :
  (forall n, n <> "stop" -> Event.subscribers n w' = Event.subscribers n w) ->
  routes w' = routes w ->
  settings w' = settings w ->
  handler_events w' v h = handler_events w v h.
Proof.
  intros Hs Hr Hl. unfold handler_events. destruct h as [id|self]; [done|].
  unfold dispatch_events.
  rewrite Hr, !(trigger_events_ext w w') by (try apply Hs; done).
  done.
Qed.

Lemma handler_events_stop a w v h :
  handler_events (App.stop a w).1 v h = handler_events w v h.
Proof.
  apply handler_events_ext; try done.
  intros n Hn. rewrite stop_exact. cbn [fst]. rewrite subscribers_bind.
  by case_decide.
Qed.

(** X10. [stop()] changes nothing about what a request does: a request
    pushed or replaced after [stop()] leaves the very trace it would have
    left before it - the same handler calls, notifications, subscriber
    calls, log entries, lookups and route runs. *)
Theorem stop_leaves_dispatch_unchanged rs loc ttl ops a r :
  delta (History.pushState r) (after rs loc ttl (ops ++ [Stop a]))
  = delta (History.pushState r) (after rs loc ttl ops) /\
  delta (History.replaceState r) (after rs loc ttl (ops ++ [Stop a]))
  = delta (History.replaceState r) (after rs loc ttl ops).
Proof.
  rewrite !delta_pushState, !delta_replaceState by apply after_wf.
  rewrite !after_handlers. unfold registrations.
  rewrite flat_map_app. cbn [flat_map registered]. rewrite !app_nil_r.
  rewrite after_snoc. cbn [exec].
  split; f_equal; apply flat_map_ext; intros h; apply handler_events_stop.
Qed.

(** ** Several apps *)

(** X11. With several apps started, or one app started several times,
    every [start()] has its own dispatch: a request makes the started apps
    notify, look up and run the route one after the other, in the order of
    the [start()] calls, each against the same route table. *)
Theorem every_start_dispatches rs loc ttl ops r :
  let w := after rs loc ttl ops in
  let all := flat_map (fun self => dispatch_steps rs self r) (starts ops) in
  steps (delta (History.pushState r) w) = all /\
  steps (delta (History.replaceState r) w) = all /\
  (forall state url,
     delivered (set_location url w) state = VRequest r ->
     steps (delta (History.popstate state url) w) = all).
Proof.
  intros w all. unfold w, all. split; [apply steps_pushState|].
  split; [apply steps_replaceState|].
  intros state url E. by apply steps_popstate.
Qed.

(** Two apps, started in turn: the route runs twice. *)
Lemma every_start_dispatches_example :
  steps (delta (History.pushState bob)
           (after [welcome] "/" "home" [NewApp; NewApp; Start 1; Start 0]))
  = [Trigger 1 "lookupRoute" (Some (VRequest bob));
     RouteLookup (VString "get") (VString "/welcome/bob");
     Trigger 1 "runRoute" (Some (VRequest bob));
     RouteRun welcome (VRequest bob);
     Trigger 0 "lookupRoute" (Some (VRequest bob));
     RouteLookup (VString "get") (VString "/welcome/bob");
     Trigger 0 "runRoute" (Some (VRequest bob));
     RouteRun welcome (VRequest bob)].
Proof. vm_compute. done. Qed.

(** ** A state that is not a Request *)

Lemma steps_handler_primitive w v h :
  to_boolean v = true ->
  (forall r, v <> VRequest r) ->
  steps (handler_events w v h)
  = match h with
    | HUser _ => []
    | HDispatch self =>
        [Trigger self "lookupRoute" (Some v);
         RouteLookup VUndefined VUndefined;
         Trigger self "routeNotFound" (Some v)]
    end.
Proof.
  intros Ht Hr. unfold steps, handler_events.
  rewrite omap_cons_None by done. destruct h as [id|self]; [done|].
  unfold dispatch_events. rewrite omap_app, omap_trigger_events by done.
  destruct v as [| |b|n|s|r]; try done; [| | |by destruct (Hr r)].
  all: cbn [get lookup_values];
    change (RouteLookup ?a ?b :: ?l) with ([RouteLookup a b] ++ l);
    by rewrite omap_app, omap_trigger_events.
Qed.

(** X12. A popstate event whose state is truthy but not a Request (a
    number, a string, [true]) is handed on as it is; its [method] and
    [path] are [undefined], so every started app looks up
    [(undefined, undefined)], finds no route and sends [routeNotFound]: no
    route runs. *)
Theorem primitive_state_is_not_found rs loc ttl ops state url :
  to_boolean state = true ->
  (forall r, state <> VRequest r) ->
  steps (delta (History.popstate state url) (after rs loc ttl ops))
  = flat_map (fun self => [Trigger self "lookupRoute" (Some state);
                           RouteLookup VUndefined VUndefined;
                           Trigger self "routeNotFound" (Some state)])
             (starts ops).
Proof.
  intros Ht Hr. rewrite delta_popstate by apply after_wf.
  rewrite after_listeners, steps_listener_events.
  unfold delivered. rewrite Ht, <- dispatchers_registrations.
  induction (registrations ops) as [|h hs IH]; [done|].
  cbn [flat_map]. unfold steps in *. rewrite omap_app, IH.
  fold (steps (handler_events
                 (set_location url (after rs loc ttl ops)) state h)).
  rewrite steps_handler_primitive by done. by destruct h.
Qed.

Lemma primitive_state_is_not_found_witness :
  to_boolean (VNumber (Finite 5)) = true /\
  (forall r, VNumber (Finite 5) <> VRequest r) /\
  steps (delta (History.popstate (VNumber (Finite 5)) "/welcome/bob")
           (after [welcome] "/" "home" [NewApp; Start 0]))
  = [Trigger 0 "lookupRoute" (Some (VNumber (Finite 5)));
     RouteLookup VUndefined VUndefined;
     Trigger 0 "routeNotFound" (Some (VNumber (Finite 5)))].
Proof.
  split; [reflexivity|]. split; [discriminate|].
  pose proof (primitive_state_is_not_found [welcome] "/" "home"
                [NewApp; Start 0] (VNumber (Finite 5)) "/welcome/bob" eq_refl
                ltac:(discriminate)) as H.
  vm_compute in H. vm_compute. exact H.
Defined.

(** ** No exception *)

Lemma no_error_trigger w self name arg :
  wf w -> name <> "stop" ->
  no_error (trigger_events w self name arg).
Proof.
  intros Hwf Hn. constructor; [done|].
  apply Forall_flat_map, Forall_forall. intros cb Hcb.
  apply Hwf in Hcb.
  destruct cb; simpl in Hcb; try done; by repeat constructor.
Qed.

Lemma no_error_handler w v h :
  wf w -> present v = true -> no_error (handler_events w v h).
Proof.
  intros Hwf Hv. constructor; [done|]. destruct h as [id|self]; [constructor|].
  unfold dispatch_events. apply Forall_app. split.
  - by apply no_error_trigger.
  - destruct v as [| |b|n|s|r]; try done; cbn [get].
    all: constructor; [done|].
    all: destruct (lookup_values _ _ _);
      [apply Forall_app; split; [by apply no_error_trigger|
                                 by repeat constructor]
      |by apply no_error_trigger].
Qed.

Lemma no_error_listener w state l :
  wf w -> no_error (listener_events w state l).
Proof.
  intros Hwf. destruct l as [h]. apply Forall_app. split.
  - destruct (to_boolean state); by repeat constructor.
  - apply no_error_handler; [done|apply present_delivered].
Qed.

Lemma exec_no_error o w :
  wf w ->
  exists es, trace (exec o w).1 = trace w ++ es /\ no_error es.
Proof.
  intros Hwf. destruct o as [|self config|self|self|name id|h|r|r|state url];
    cbn [exec].
  - exists []. split; [by rewrite app_nil_r|constructor].
  - exists []. split; [by rewrite app_nil_r|constructor].
  - rewrite start_exact by done. eexists. split; [reflexivity|].
    constructor; [done|]. apply no_error_trigger; [|done].
    apply (wf_callbacks (bound self w)); [done|by apply wf_bound].
  - rewrite stop_exact. exists [Unlisten self]. split; [done|].
    by repeat constructor.
  - exists []. split; [by rewrite app_nil_r|constructor].
  - exists []. split; [by rewrite app_nil_r|constructor].
  - rewrite pushState_exact by done. eexists. split; [reflexivity|].
    constructor; [done|]. apply Forall_flat_map, Forall_forall.
    intros h _. by apply no_error_handler.
  - rewrite replaceState_exact by done. eexists. split; [reflexivity|].
    constructor; [done|]. apply Forall_flat_map, Forall_forall.
    intros h _. by apply no_error_handler.
  - rewrite popstate_exact by done. eexists. split; [reflexivity|].
    apply Forall_flat_map, Forall_forall.
    intros l _. by apply (no_error_listener (set_location url w)).
Qed.

(** X13. A page that uses the library through these operations never sees
    an exception from it: every program runs to its end, and no TypeError
    is raised on the way - the [undefined] that [stop()] leaves among the
    subscribers of [stop] is never called, since nothing triggers [stop]. *)
Theorem programs_never_throw rs loc ttl ops :
  (run ops (init rs loc ttl)).2 = Normal /\
  no_error (trace (after rs loc ttl ops)).
Proof.
  split; [apply run_ok, wf_init|].
  induction ops as [|o ops IH] using rev_ind; [constructor|].
  rewrite after_snoc.
  destruct (exec_no_error o (after rs loc ttl ops) (after_wf _ _ _ _))
    as (es & -> & Hes).
  by apply Forall_app.
Qed.

(** ** [running] belongs to the instance *)

Lemma exec_running_other o w b :
  wf w ->
  o <> Start b ->
  b < length (apps w) ->
  App.is_running b (exec o w).1 = App.is_running b w.
Proof.
  intros Hwf Ho Hb. unfold App.is_running.
  destruct o as [|self config|self|self|name id|h|r|r|state url];
    cbn [exec]; try done.
  - simpl. by rewrite lookup_app_l.
  - rewrite start_exact by done. cbn [fst apps set_apps].
    rewrite list_lookup_alter. case_decide; [congruence|done].
  - by rewrite pushState_exact.
  - by rewrite replaceState_exact.
  - by rewrite popstate_exact.
Qed.

(** X14. Unlike the settings and the handlers, [running] is the
    instance's own: only [start()] on an app itself writes its [running];
    no other operation - [start()], [stop()] or [configure()] on any app,
    a new app, a subscription, a request - changes it. *)
Theorem running_written_only_by_own_start rs loc ttl ops o b :
  o <> Start b ->
  b < length (apps (after rs loc ttl ops)) ->
  App.is_running b (after rs loc ttl (ops ++ [o]))
  = App.is_running b (after rs loc ttl ops).
Proof.
  intros Ho Hb. rewrite after_snoc.
  apply exec_running_other; [apply after_wf|done..].
Qed.

Lemma running_written_only_by_own_start_witness :
  Start 0 <> Start 1 /\
  1 < length (apps (after [] "/" "home" [NewApp; NewApp])) /\
  App.is_running 1 (after [] "/" "home" ([NewApp; NewApp] ++ [Start 0]))
  = Some false.
Proof.
  split; [discriminate|]. split; [vm_compute; lia|].
  rewrite (running_written_only_by_own_start [] "/" "home" [NewApp; NewApp]
             (Start 0) 1 ltac:(discriminate) ltac:(vm_compute; lia)).
  reflexivity.
Defined.
